(** * The room model of the Matrix client library (lib/room.cpp)

    A shallow embedding of [Room] and [Room::Private]: the state-event
    handler with its membership bookkeeping, the room display name
    algorithm, and the backward pagination of the timeline.

    The C++ code mutates one [Room::Private] object, the [User] objects owned
    by the [Connection], and talks to the outside through Qt signals and
    jobs.  All of that is explicit state here: a [World] holds the private
    part of the room, the names of the users, the signal connections made by
    the room, the jobs it started and the signals it emitted. *)

From stdpp Require Import gmap strings list pretty.
From Stdlib Require Import ZArith Ascii.
From Stdlib Require OrderedTypeEx.

Open Scope string_scope.
Open Scope list_scope.

(** ** QString *)

Definition isEmpty (s : string) : bool := bool_decide (s = "").

(** [QString::operator<] compares code unit by code unit. *)
Definition QString_lt (a b : string) : bool := String.ltb a b.

(** *** QString::arg

    [s.arg(a)] replaces every occurrence of the lowest numbered place marker
    of [s] ([%1] .. [%99], optionally written [%L1]) by [a]; a string without
    place marker is returned as it is.  The scan below is the one of Qt's
    [findArgEscapes]: a [%] that is not followed by a digit is ordinary
    text, and the scan goes on at the character that was not a digit. *)

Inductive ArgToken :=
| Lit (c : ascii)
| Escape (n : nat) (raw : string).

Definition digitValue (c : ascii) : option nat :=
  let n := nat_of_ascii c in
  if (48 <=? n)%nat && (n <=? 57)%nat then Some (n - 48)%nat else None.

Definition is_percent (c : ascii) : bool := bool_decide (c = "%"%char).
Definition is_L (c : ascii) : bool := bool_decide (c = "L"%char).

Fixpoint argTokens (s : string) : list ArgToken :=
  match s with
  | EmptyString => []
  | String c s1 =>
    if is_percent c then
      match s1 with
      | EmptyString => [Lit c]
      | String c1 s2 =>
        if is_L c1 then
          match s2 with
          | EmptyString => [Lit c; Lit c1]
          | String c2 s3 =>
            match digitValue c2 with
            | None => Lit c :: Lit c1 :: argTokens s2
            | Some d =>
              match s3 with
              | EmptyString => [Escape d (String c (String c1 (String c2 "")))]
              | String c3 s4 =>
                match digitValue c3 with
                | None =>
                  Escape d (String c (String c1 (String c2 ""))) :: argTokens s3
                | Some d' =>
                  Escape (10 * d + d')
                         (String c (String c1 (String c2 (String c3 ""))))
                    :: argTokens s4
                end
              end
            end
          end
        else
          match digitValue c1 with
          | None => Lit c :: argTokens s1
          | Some d =>
            match s2 with
            | EmptyString => [Escape d (String c (String c1 ""))]
            | String c2 s3 =>
              match digitValue c2 with
              | None => Escape d (String c (String c1 "")) :: argTokens s2
              | Some d' =>
                Escape (10 * d + d') (String c (String c1 (String c2 "")))
                  :: argTokens s3
              end
            end
          end
      end
    else Lit c :: argTokens s1
  end.

Fixpoint min_escape (ts : list ArgToken) : option nat :=
  match ts with
  | [] => None
  | Lit _ :: ts' => min_escape ts'
  | Escape n _ :: ts' =>
    match min_escape ts' with
    | None => Some n
    | Some m => Some (Nat.min n m)
    end
  end.

Fixpoint replaceArgEscapes (n : nat) (a : string) (ts : list ArgToken) : string :=
  match ts with
  | [] => ""
  | Lit c :: ts' => String c (replaceArgEscapes n a ts')
  | Escape k raw :: ts' =>
    (if (k =? n)%nat then a else raw) +:+ replaceArgEscapes n a ts'
  end.

Definition QString_arg (s a : string) : string :=
  match min_escape (argTokens s) with
  | None => s
  | Some n => replaceArgEscapes n a (argTokens s)
  end.

(** No [%] in the string: nothing in it can be taken for a place marker. *)
Fixpoint percent_free (s : string) : bool :=
  match s with
  | EmptyString => true
  | String c s' => negb (is_percent c) && percent_free s'
  end.

(** [s.arg(int)]: the number in base 10.  (A marker written [%L] asks for
    the digit grouping of the locale; the format string of the room has
    none, and the grouping is left out.) *)
Definition QString_arg_int (s : string) (n : Z) : string :=
  QString_arg s (pretty n).

(** ** Events *)

(** A [User*] handed out by [Connection::user(id)]: the connection keeps one
    [User] object per Matrix id, so the id stands for the pointer, and
    [User::id()] is the identity. *)
Abbreviation User := string (only parsing).

Module MembershipType.
Inductive t := Invite | Join | Knock | Leave | Ban.
#[global] Instance membership_eq_dec : EqDecision t.
Proof. solve_decision. Defined.
End MembershipType.

Module JoinState.
Inductive t := Join | Invite | Leave.
#[global] Instance joinState_eq_dec : EqDecision t.
Proof. solve_decision. Defined.
End JoinState.

Record Receipt := { receipt_userId : string; receipt_timestamp : Z }.

(** The event classes the room looks at, with the accessors it calls;
    [ev_timestamp] is the ordering key used to place the event in the
    timeline. *)
Inductive EventData :=
| RoomMessageEvent (body : string)
| RoomNameEvent (name : string)
| RoomAliasesEvent (aliases : list string)
| RoomCanonicalAliasEvent (alias : string)
| RoomTopicEvent (topic : string)
| RoomMemberEvent (userId : string) (membership : MembershipType.t)
                  (displayName : string)
| TypingEvent (users : list string)
| ReceiptEvent (receipts : list (string * list Receipt))
| UnknownEvent.

Record Event := { ev_timestamp : Z; ev_data : EventData }.

#[global] Instance Receipt_eq_dec : EqDecision Receipt.
Proof. solve_decision. Defined.
#[global] Instance EventData_eq_dec : EqDecision EventData.
Proof. solve_decision. Defined.
#[global] Instance Event_eq_dec : EqDecision Event.
Proof. solve_decision. Defined.

Module SyncRoomData.
Record t := mk {
    joinState : JoinState.t;
    timelinePrevBatch : string;
    state : list Event;
    timeline : list Event;
    ephemeral : list Event;
    highlightCount : Z;
    notificationCount : Z
  }.
End SyncRoomData.

(** What [gotMessages] reads from a finished [RoomMessagesJob]. *)
Module RoomMessagesJob.
Record t := mk {
    error : Z;
    errorString : string;
    events : list Event;
    end_ : string
  }.
End RoomMessagesJob.

(** ** QMultiHash<QString, User*>

    Several values per key; [insert] adds a pair even when it is there
    already, [remove(key, value)] takes out every such pair.  Qt fixes the
    order in which a hash hands out its values among the values of one key
    only, the most recently inserted first, as [insert] has it; across the
    keys the order is not specified, and the order of the association list
    stands for it. *)
Module QMultiHash.
Abbreviation t := (list (string * User)).
Definition values (h : t) : list User := h.*2.
Definition values_of (h : t) (key : string) : list User :=
    (filter (λ p, p.1 = key) h).*2.
Definition insert (key : string) (value : User) (h : t) : t :=
    (key, value) :: h.
Definition remove (key : string) (value : User) (h : t) : t :=
    filter (λ p, p ≠ (key, value)) h.
End QMultiHash.

Definition contains {A} `{EqDecision A} (l : list A) (x : A) : bool :=
  bool_decide (x ∈ l).

(** ** Room::Private *)

Module Private.
Record t := mk {
    messageEvents : list Event;
    id : string;
    aliases : list string;
    canonicalAlias : string;
    name : string;
    displayname : string;
    topic : string;
    joinState : JoinState.t;
    highlightCount : Z;
    notificationCount : Z;
    users : QMultiHash.t;
    usersTyping : list User;
    usersLeft : list User;
    lastReadEvent : gmap User string;
    prevBatch : string;
    gettingNewContent : bool
  }.

Definition set_messageEvents v d :=
    mk v (id d) (aliases d) (canonicalAlias d) (name d) (displayname d)
       (topic d) (joinState d) (highlightCount d) (notificationCount d)
       (users d) (usersTyping d) (usersLeft d) (lastReadEvent d)
       (prevBatch d) (gettingNewContent d).
Definition set_aliases v d :=
    mk (messageEvents d) (id d) v (canonicalAlias d) (name d) (displayname d)
       (topic d) (joinState d) (highlightCount d) (notificationCount d)
       (users d) (usersTyping d) (usersLeft d) (lastReadEvent d)
       (prevBatch d) (gettingNewContent d).
Definition set_canonicalAlias v d :=
    mk (messageEvents d) (id d) (aliases d) v (name d) (displayname d)
       (topic d) (joinState d) (highlightCount d) (notificationCount d)
       (users d) (usersTyping d) (usersLeft d) (lastReadEvent d)
       (prevBatch d) (gettingNewContent d).
Definition set_name v d :=
    mk (messageEvents d) (id d) (aliases d) (canonicalAlias d) v
       (displayname d) (topic d) (joinState d) (highlightCount d)
       (notificationCount d) (users d) (usersTyping d) (usersLeft d)
       (lastReadEvent d) (prevBatch d) (gettingNewContent d).
Definition set_displayname v d :=
    mk (messageEvents d) (id d) (aliases d) (canonicalAlias d) (name d) v
       (topic d) (joinState d) (highlightCount d) (notificationCount d)
       (users d) (usersTyping d) (usersLeft d) (lastReadEvent d)
       (prevBatch d) (gettingNewContent d).
Definition set_topic v d :=
    mk (messageEvents d) (id d) (aliases d) (canonicalAlias d) (name d)
       (displayname d) v (joinState d) (highlightCount d)
       (notificationCount d) (users d) (usersTyping d) (usersLeft d)
       (lastReadEvent d) (prevBatch d) (gettingNewContent d).
Definition set_joinState v d :=
    mk (messageEvents d) (id d) (aliases d) (canonicalAlias d) (name d)
       (displayname d) (topic d) v (highlightCount d) (notificationCount d)
       (users d) (usersTyping d) (usersLeft d) (lastReadEvent d)
       (prevBatch d) (gettingNewContent d).
Definition set_highlightCount v d :=
    mk (messageEvents d) (id d) (aliases d) (canonicalAlias d) (name d)
       (displayname d) (topic d) (joinState d) v (notificationCount d)
       (users d) (usersTyping d) (usersLeft d) (lastReadEvent d)
       (prevBatch d) (gettingNewContent d).
Definition set_notificationCount v d :=
    mk (messageEvents d) (id d) (aliases d) (canonicalAlias d) (name d)
       (displayname d) (topic d) (joinState d) (highlightCount d) v
       (users d) (usersTyping d) (usersLeft d) (lastReadEvent d)
       (prevBatch d) (gettingNewContent d).
Definition set_users v d :=
    mk (messageEvents d) (id d) (aliases d) (canonicalAlias d) (name d)
       (displayname d) (topic d) (joinState d) (highlightCount d)
       (notificationCount d) v (usersTyping d) (usersLeft d)
       (lastReadEvent d) (prevBatch d) (gettingNewContent d).
Definition set_usersTyping v d :=
    mk (messageEvents d) (id d) (aliases d) (canonicalAlias d) (name d)
       (displayname d) (topic d) (joinState d) (highlightCount d)
       (notificationCount d) (users d) v (usersLeft d) (lastReadEvent d)
       (prevBatch d) (gettingNewContent d).
Definition set_usersLeft v d :=
    mk (messageEvents d) (id d) (aliases d) (canonicalAlias d) (name d)
       (displayname d) (topic d) (joinState d) (highlightCount d)
       (notificationCount d) (users d) (usersTyping d) v (lastReadEvent d)
       (prevBatch d) (gettingNewContent d).
Definition set_lastReadEvent v d :=
    mk (messageEvents d) (id d) (aliases d) (canonicalAlias d) (name d)
       (displayname d) (topic d) (joinState d) (highlightCount d)
       (notificationCount d) (users d) (usersTyping d) (usersLeft d) v
       (prevBatch d) (gettingNewContent d).
Definition set_prevBatch v d :=
    mk (messageEvents d) (id d) (aliases d) (canonicalAlias d) (name d)
       (displayname d) (topic d) (joinState d) (highlightCount d)
       (notificationCount d) (users d) (usersTyping d) (usersLeft d)
       (lastReadEvent d) v (gettingNewContent d).
Definition set_gettingNewContent v d :=
    mk (messageEvents d) (id d) (aliases d) (canonicalAlias d) (name d)
       (displayname d) (topic d) (joinState d) (highlightCount d)
       (notificationCount d) (users d) (usersTyping d) (usersLeft d)
       (lastReadEvent d) (prevBatch d) v.
End Private.

(** ** Signals and the world around the room *)

Inductive Signal :=
| joinStateChanged (oldState newState : JoinState.t)
| notificationCountChanged
| highlightCountChanged
| newMessage (event : Event)
| topicChanged
| userAdded (u : User)
| userRemoved (u : User)
| namesChanged
| typingChanged.

Record World := mkWorld {
  (** the room's [d] pointer *)
  d : Private.t;
  (** [connection->user()], the user of this client *)
  localUser : User;
  (** [User::name()] of the connection's users; empty when never set *)
  userNames : gmap User string;
  (** connections of [User::nameChanged] to [Room::userRenamed], one entry
      for each [connect] *)
  nameChangedSlots : list User;
  (** the [RoomMessagesJob]s started by [Connection::getMessages] whose
      [result] has not been delivered yet, by the token they ask from *)
  jobs : list string;
  (** the signals emitted by the room, oldest first *)
  emitted : list Signal
}.

Definition upd (f : Private.t → Private.t) (w : World) : World :=
  mkWorld (f (d w)) (localUser w) (userNames w) (nameChangedSlots w) (jobs w)
          (emitted w).
Definition set_userNames v (w : World) : World :=
  mkWorld (d w) (localUser w) v (nameChangedSlots w) (jobs w) (emitted w).
Definition set_nameChangedSlots v (w : World) : World :=
  mkWorld (d w) (localUser w) (userNames w) v (jobs w) (emitted w).
Definition set_jobs v (w : World) : World :=
  mkWorld (d w) (localUser w) (userNames w) (nameChangedSlots w) v (emitted w).
Definition emit (s : Signal) (w : World) : World :=
  mkWorld (d w) (localUser w) (userNames w) (nameChangedSlots w) (jobs w)
          (emitted w ++ [s]).

Definition User_name (w : World) (u : User) : string :=
  default "" (userNames w !! u).
Definition User_id (u : User) : string := u.

(** ** Display names *)

Section Room.

(** The build flag [NDEBUG]: [true] for a release build, where the
    [#ifndef NDEBUG] block of [roomMembername] is compiled out. *)
Variable NDEBUG : bool.

(** [Room::roomMembername] *)
Definition roomMembername (w : World) (u : User) : string :=
  let username := User_name w u in
  if isEmpty username then User_id u
  else
    let namesakes := QMultiHash.values_of (Private.users (d w)) username in
    if (length namesakes =? 1)%nat then username
    else if negb NDEBUG && negb (contains namesakes u) then username
    else username +:+ " <" +:+ User_id u +:+ ">".

(** [std::partial_sort_copy] into a destination of two slots, by the heap
    selection of the standard library: the first two elements of the input
    make a heap whose top is the larger one under [comp]; every further
    element that is before the top replaces it, and the heap is put in order
    again; in the end the heap is sorted, the smaller element first.  Slots
    that the input does not reach keep what they held. *)
Definition heap_select (comp : User → User → bool) (heap : User * User)
    (e : User) : User * User :=
  if comp e heap.1
  then (if comp heap.2 e then (e, heap.2) else (heap.2, e))
  else heap.

Definition partial_sort_copy (comp : User → User → bool) (input : list User)
    (result : option User * option User) : option User * option User :=
  match input with
  | [] => result
  | [a] => (Some a, result.2)
  | a :: b :: rest =>
    let heap := if comp b a then (a, b) else (b, a) in
    let sorted := foldl (heap_select comp) heap rest in
    (Some sorted.2, Some sorted.1)
  end.

(** [q->roomMembername(first_two.at(i))].  The slot still holds [nullptr]
    when the list has fewer than two users; the code reads the slots only
    for lists of two and more (see [partial_sort_copy_filled]). *)
Definition roomMembername_at (w : World) (slot : option User) : string :=
  match slot with
  | Some u => roomMembername w u
  | None => ""
  end.

(** [Room::Private::roomNameFromMemberNames] *)
Definition roomNameFromMemberNames (w : World) (userlist : list User) : string :=
  let first_two :=
    partial_sort_copy
      (λ u1 u2, negb (bool_decide (u1 = localUser w))
                && QString_lt (User_id u1) (User_id u2))
      userlist (None, None) in
  if (length userlist =? 2)%nat then
    roomMembername_at w first_two.1
  else if (length userlist =? 3)%nat then
    roomMembername_at w first_two.1 +:+ " and "
      +:+ roomMembername_at w first_two.2
  else if (3 <? length userlist)%nat then
    QString_arg_int
      (QString_arg "%1 and %2 others" (roomMembername_at w first_two.1))
      (Z.of_nat (length userlist) - 3)
  else "".

(** [Room::Private::updateDisplayname].  The [do { } while (false)] with its
    [break]s is the chain of conditionals; [displayname] is assigned on the
    way, as in the code. *)
Definition updateDisplayname (w : World) : World :=
  let old_name := Private.displayname (d w) in
  let w' :=
    if negb (isEmpty (Private.name (d w))) then
      let w1 := upd (Private.set_displayname (Private.name (d w))) w in
      if negb (isEmpty (Private.canonicalAlias (d w1))) then
        upd (Private.set_displayname
               (Private.displayname (d w1)
                  +:+ (" <" +:+ Private.canonicalAlias (d w1) +:+ ">"))) w1
      else w1
    else if negb (isEmpty (Private.canonicalAlias (d w))) then
      upd (Private.set_displayname (Private.canonicalAlias (d w))) w
    else
      let w3 :=
        upd (Private.set_displayname
               (roomNameFromMemberNames w
                  (QMultiHash.values (Private.users (d w))))) w in
      if negb (isEmpty (Private.displayname (d w3))) then w3
      else
        let w4 :=
          upd (Private.set_displayname
                 (roomNameFromMemberNames w3 (Private.usersLeft (d w3)))) w3 in
        if negb (isEmpty (Private.displayname (d w4))) then w4
        else
          upd (Private.set_displayname
                 ("Empty room (" +:+ Private.id (d w4) +:+ ")")) w4 in
  if bool_decide (old_name ≠ Private.displayname (d w')) then
    emit namesChanged w'
  else w'.

(** [Room::Private::renameUser] and the slot [Room::userRenamed] *)
Definition renameUser (user : User) (oldName : string) (w : World) : World :=
  if contains (QMultiHash.values_of (Private.users (d w)) oldName) user then
    let w1 :=
      upd (λ p, Private.set_users
                  (QMultiHash.remove oldName user (Private.users p)) p) w in
    let w2 :=
      upd (λ p, Private.set_users
                  (QMultiHash.insert (User_name w1 user) user (Private.users p))
                  p) w1 in
    updateDisplayname w2
  else w.

Definition userRenamed (user : User) (oldName : string) (w : World) : World :=
  renameUser user oldName w.

(** Modelled from the spec: [User::processEvent] and the delivery of
    [User::nameChanged] (user.cpp is not among the sources).  The payload of a
    member event is handed to the user, who updates its own display name; a
    change of name is seen by the rooms subscribed to the user, whose slot is
    called with the user and the old name, once per connection. *)
Definition User_processEvent (u : User) (event : EventData) (w : World) : World :=
  match event with
  | RoomMemberEvent _ _ displayName =>
    let oldName := User_name w u in
    if bool_decide (oldName = displayName) then w
    else
      let w1 := set_userNames (<[u := displayName]> (userNames w)) w in
      Nat.iter (length (filter (λ x, x = u) (nameChangedSlots w1)))
               (userRenamed u oldName) w1
  | _ => w
  end.

(** ** The timeline *)

(** Modelled from the spec: [Event::findEarliestAfterMe] (event.cpp is not
    among the sources): the insertion point is the first position whose
    element's ordering key is not before the key of the event. *)
Fixpoint findEarliestAfterMe (event : Event) (events : list Event) : nat :=
  match events with
  | [] => 0
  | other :: rest =>
    if (ev_timestamp other <? ev_timestamp event)%Z
    then S (findEarliestAfterMe event rest)
    else 0
  end.

Definition QList_insert {A} (i : nat) (x : A) (l : list A) : list A :=
  take i l ++ x :: drop i l.

(** [events.insert(event->findEarliestAfterMe(events), event)] *)
Definition insertEvent (events : list Event) (event : Event) : list Event :=
  QList_insert (findEarliestAfterMe event events) event events.

(** [Room::processMessageEvent] *)
Definition processMessageEvent (event : Event) (w : World) : World :=
  upd (λ p, Private.set_messageEvents
              (insertEvent (Private.messageEvents p) event) p) w.

(** ** The state-event handler *)

(** [Room::processStateEvent]; [None] is the null pointer.  The tests of
    [event->type()] exclude one another, so the sequence of [if]s is one
    [match]. *)
Definition processStateEvent (event : option Event) (w : World) : World :=
  match event with
  | None => w
  | Some e =>
    match ev_data e with
    | RoomNameEvent name =>
      updateDisplayname (upd (Private.set_name name) w)
    | RoomAliasesEvent aliases =>
      updateDisplayname (upd (Private.set_aliases aliases) w)
    | RoomCanonicalAliasEvent alias =>
      updateDisplayname (upd (Private.set_canonicalAlias alias) w)
    | RoomTopicEvent topic =>
      emit topicChanged (upd (Private.set_topic topic) w)
    | RoomMemberEvent userId membership _ =>
      let u : User := userId in
      let w1 := User_processEvent u (ev_data e) w in
      if bool_decide (membership = MembershipType.Join)
         && negb (contains (QMultiHash.values_of (Private.users (d w1))
                                                 (User_name w1 u)) u)
      then
        let w2 :=
          upd (λ p, Private.set_users
                      (QMultiHash.insert (User_name w1 u) u (Private.users p))
                      p) w1 in
        let w3 := set_nameChangedSlots (nameChangedSlots w2 ++ [u]) w2 in
        updateDisplayname (emit (userAdded u) w3)
      else if bool_decide (membership = MembershipType.Leave) then
        let w2 :=
          if contains (QMultiHash.values_of (Private.users (d w1))
                                            (User_name w1 u)) u
          then upd (λ p, Private.set_users
                           (QMultiHash.remove (User_name w1 u) u
                                              (Private.users p)) p) w1
          else w1 in
        let w3 :=
          if negb (contains (Private.usersLeft (d w2)) u)
          then upd (λ p, Private.set_usersLeft (Private.usersLeft p ++ [u]) p) w2
          else w2 in
        let w4 :=
          set_nameChangedSlots (filter (λ x, x ≠ u) (nameChangedSlots w3)) w3 in
        updateDisplayname (emit (userRemoved u) w4)
      else w1
    | _ => w
    end
  end.

(** [Room::processEphemeralEvent] *)
Definition processEphemeralEvent (event : Event) (w : World) : World :=
  match ev_data event with
  | TypingEvent users =>
    emit typingChanged (upd (Private.set_usersTyping users) w)
  | ReceiptEvent receipts =>
    foldl (λ w0 '(eventId, rs),
           foldl (λ w1 r,
                  upd (λ p, Private.set_lastReadEvent
                              (<[receipt_userId r := eventId]>
                                 (Private.lastReadEvent p)) p) w1)
                 w0 rs)
          w receipts
  | _ => w
  end.

(** [Room::setJoinState] *)
Definition setJoinState (state : JoinState.t) (w : World) : World :=
  let oldState := Private.joinState (d w) in
  if bool_decide (state = oldState) then w
  else emit (joinStateChanged oldState state)
            (upd (Private.set_joinState state) w).

(** [Room::resetNotificationCount] and [Room::resetHighlightCount] *)
Definition resetNotificationCount (w : World) : World :=
  if bool_decide (Private.notificationCount (d w) = 0%Z) then w
  else emit notificationCountChanged (upd (Private.set_notificationCount 0%Z) w).

Definition resetHighlightCount (w : World) : World :=
  if bool_decide (Private.highlightCount (d w) = 0%Z) then w
  else emit highlightCountChanged (upd (Private.set_highlightCount 0%Z) w).

(** [Room::addMessage] and [Room::addInitialState] *)
Definition addMessage (event : Event) (w : World) : World :=
  emit (newMessage event) (processMessageEvent event w).

Definition addInitialState (event : option Event) (w : World) : World :=
  processStateEvent event w.

(** The body of the loop over [data.timeline] in [Room::updateData] *)
Definition timelineEvent_step (w : World) (timelineEvent : Event) : World :=
  processStateEvent (Some timelineEvent)
    (emit (newMessage timelineEvent) (processMessageEvent timelineEvent w)).

(** [Room::updateData] *)
Definition updateData (data : SyncRoomData.t) (w : World) : World :=
  let w1 :=
    if isEmpty (Private.prevBatch (d w))
    then upd (Private.set_prevBatch (SyncRoomData.timelinePrevBatch data)) w
    else w in
  let w2 := setJoinState (SyncRoomData.joinState data) w1 in
  let w3 :=
    foldl (λ w0 stateEvent, processStateEvent (Some stateEvent) w0)
          w2 (SyncRoomData.state data) in
  let w4 := foldl timelineEvent_step w3 (SyncRoomData.timeline data) in
  let w5 :=
    foldl (λ w0 ephemeralEvent, processEphemeralEvent ephemeralEvent w0)
          w4 (SyncRoomData.ephemeral data) in
  let w6 :=
    if bool_decide (SyncRoomData.highlightCount data
                    ≠ Private.highlightCount (d w5))
    then emit highlightCountChanged
              (upd (Private.set_highlightCount
                      (SyncRoomData.highlightCount data)) w5)
    else w5 in
  if bool_decide (SyncRoomData.notificationCount data
                  ≠ Private.notificationCount (d w6))
  then emit notificationCountChanged
            (upd (Private.set_notificationCount
                    (SyncRoomData.notificationCount data)) w6)
  else w6.

(** ** Backward pagination *)

(** [Room::getPreviousContent]: [Connection::getMessages] starts a job for
    the current token, whose [result] is connected to [gotMessages]. *)
Definition getPreviousContent (w : World) : World :=
  if negb (Private.gettingNewContent (d w)) then
    let w1 := upd (Private.set_gettingNewContent true) w in
    set_jobs (jobs w1 ++ [Private.prevBatch (d w1)]) w1
  else w.

(** The body of the loop over [realJob->events()] in [Room::gotMessages] *)
Definition gotMessages_step (w : World) (event : Event) : World :=
  emit (newMessage event) (processMessageEvent event w).

(** [Room::gotMessages]; the [qDebug] line of the error branch leaves
    nothing in the state. *)
Definition gotMessages (job : RoomMessagesJob.t) (w : World) : World :=
  let w1 :=
    if bool_decide (RoomMessagesJob.error job ≠ 0%Z) then w
    else
      let w2 := foldl gotMessages_step w (RoomMessagesJob.events job) in
      upd (Private.set_prevBatch (RoomMessagesJob.end_ job)) w2 in
  upd (Private.set_gettingNewContent false) w1.

(** ** Construction and use *)

(** [Room::Room].  The constructor leaves [highlightCount] and
    [notificationCount] without a value: [hc] and [nc] stand for whatever
    they hold.  [me] and [names] are the connection's local user and the
    users it knows. *)
Definition Room_new (me : User) (names : gmap User string) (hc nc : Z)
    (id : string) : World :=
  mkWorld
    (Private.mk [] id [] "" "" ("Empty room <" +:+ id +:+ ">") ""
                JoinState.Join hc nc [] [] [] ∅ "" false)
    me names [] [] [].

(** What can happen to a room: the calls of its public members, and the
    [result] signal of a job that is under way. *)
Inductive Call :=
| call_updateData (data : SyncRoomData.t)
| call_addMessage (event : Event)
| call_addInitialState (event : option Event)
| call_setJoinState (state : JoinState.t)
| call_resetNotificationCount
| call_resetHighlightCount
| call_getPreviousContent
| job_result (job : RoomMessagesJob.t).

Definition step (w : World) (c : Call) : World :=
  match c with
  | call_updateData data => updateData data w
  | call_addMessage event => addMessage event w
  | call_addInitialState event => addInitialState event w
  | call_setJoinState state => setJoinState state w
  | call_resetNotificationCount => resetNotificationCount w
  | call_resetHighlightCount => resetHighlightCount w
  | call_getPreviousContent => getPreviousContent w
  | job_result job =>
    match jobs w with
    | [] => w
    | _ :: rest => gotMessages job (set_jobs rest w)
    end
  end.

Definition run (cs : list Call) (w : World) : World := foldl step w cs.

(** ** The display name, as the specification words it

    The first non-empty candidate of (1) the room name, with the canonical
    alias in angle brackets behind it when there is one, (2) the canonical
    alias, (3) the label made from the members, (4) the label made from the
    users who left, (5) the fallback. *)
Definition first_nonempty (candidates : list string) : string :=
  default "" (head (filter (λ s, s ≠ "") candidates)).

Definition displayname_candidates (w : World) : list string :=
  [ if isEmpty (Private.name (d w)) then ""
    else if isEmpty (Private.canonicalAlias (d w)) then Private.name (d w)
    else Private.name (d w) +:+ " <" +:+ Private.canonicalAlias (d w) +:+ ">";
    Private.canonicalAlias (d w);
    roomNameFromMemberNames w (QMultiHash.values (Private.users (d w)));
    roomNameFromMemberNames w (Private.usersLeft (d w));
    "Empty room (" +:+ Private.id (d w) +:+ ")" ].

Definition displayname_spec (w : World) : string :=
  first_nonempty (displayname_candidates w).

(** [updateDisplayname] in one piece: the new name is stored, and
    [namesChanged] is emitted when it differs from the old one. *)
Definition store_displayname (dn : string) (w : World) : World :=
  let w' := upd (Private.set_displayname dn) w in
  if bool_decide (Private.displayname (d w) ≠ dn) then emit namesChanged w'
  else w'.

(** What the single-flight guard of the pagination is about: the jobs
    under way and the flag [gettingNewContent]. *)
Definition fetch_state (w : World) : list string * bool :=
  (jobs w, Private.gettingNewContent (d w)).

(** The part of the world that the membership bookkeeping reads and
    writes. *)
Definition member_state (w : World)
    : QMultiHash.t * list User * gmap User string * list User :=
  (Private.users (d w), Private.usersLeft (d w), userNames w,
   nameChangedSlots w).

(** The registry is consistent when no user is twice in it or twice in the
    list of the users who left, and every user of the registry is filed
    under its current name and has its [nameChanged] connected to the
    room. *)
Definition consistent
    (ms : QMultiHash.t * list User * gmap User string * list User) : Prop :=
  let '(users, usersLeft, names, slots) := ms in
  NoDup usersLeft
  ∧ NoDup (QMultiHash.values users)
  ∧ (∀ key u, (key, u) ∈ users → key = default "" (names !! u) ∧ u ∈ slots).

Definition registry_consistent (w : World) : Prop :=
  consistent (member_state w).

(** What a [RoomMember] event does to the membership, once the user has
    taken its new name: [ms] is the state after [User::processEvent]. *)
Definition member_transition (u : User) (membership : MembershipType.t)
    (ms : QMultiHash.t * list User * gmap User string * list User)
    : QMultiHash.t * list User * gmap User string * list User :=
  let '(users, usersLeft, names, slots) := ms in
  let name := default "" (names !! u) in
  if bool_decide (membership = MembershipType.Join)
     && negb (contains (QMultiHash.values_of users name) u)
  then (QMultiHash.insert name u users, usersLeft, names, slots ++ [u])
  else if bool_decide (membership = MembershipType.Leave)
  then (QMultiHash.remove name u users,
        if contains usersLeft u then usersLeft else usersLeft ++ [u],
        names, filter (λ x, x ≠ u) slots)
  else ms.

Definition occurrences (u : User) (l : list User) : nat :=
  length (filter (λ x, x = u) l).

Definition event_membership (e : Event) : option MembershipType.t :=
  match ev_data e with
  | RoomMemberEvent _ membership _ => Some membership
  | _ => None
  end.

Definition last_membership (evs : list Event) : option MembershipType.t :=
  last evs ≫= event_membership.

(** A [RoomMember] event of user [u] whose membership is Join or Leave *)
Definition is_join_leave_of (u : User) (e : Event) : bool :=
  match ev_data e with
  | RoomMemberEvent userId membership _ =>
    bool_decide (userId = u)
    && (bool_decide (membership = MembershipType.Join)
        || bool_decide (membership = MembershipType.Leave))
  | _ => false
  end.

(** The registry and the list of the users who left do not both hold [u]. *)
Definition mutually_exclusive (u : User) (w : World) : Prop :=
  ¬ (u ∈ QMultiHash.values (Private.users (d w))
     ∧ u ∈ Private.usersLeft (d w)).

(** ** A room to try things on *)

Definition example_room : World := Room_new "@me:s" ∅ 0 0 "!room:s".

Definition example_event (data : EventData) : Event :=
  {| ev_timestamp := 0; ev_data := data |}.

Definition example_leave_join : list Event :=
  [ example_event (RoomMemberEvent "@x:s" MembershipType.Leave "");
    example_event (RoomMemberEvent "@x:s" MembershipType.Join "") ].

Definition example_join_leave_join : list Event :=
  [ example_event (RoomMemberEvent "@x:s" MembershipType.Join "Xavier");
    example_event (RoomMemberEvent "@x:s" MembershipType.Leave "Xavier");
    example_event (RoomMemberEvent "@x:s" MembershipType.Join "Xav") ].

Definition example_job_ok : RoomMessagesJob.t :=
  RoomMessagesJob.mk 0 ""
    [ example_event (RoomNameEvent "Old name");
      {| ev_timestamp := -5; ev_data := RoomMessageEvent "hello" |} ]
    "t-older".

Definition example_job_failed : RoomMessagesJob.t :=
  RoomMessagesJob.mk 1 "network error" [] "".

(** ** Notions for the further properties *)

(** What the state-event handler never writes: the room with the fields of
    the handler blanked, the local user and the jobs. *)
Definition state_frame (w : World) : Private.t * User * list string :=
  (Private.set_aliases []
     (Private.set_canonicalAlias ""
        (Private.set_name ""
           (Private.set_displayname ""
              (Private.set_topic ""
                 (Private.set_users [] (Private.set_usersLeft [] (d w))))))),
   localUser w, jobs w).

(** What the ephemeral-event handler never writes. *)
Definition ephemeral_frame (w : World)
    : Private.t * User * gmap User string * list User * list string :=
  (Private.set_usersTyping [] (Private.set_lastReadEvent ∅ (d w)),
   localUser w, userNames w, nameChangedSlots w, jobs w).

(** The signals of the state-event handler. *)
Definition state_signal (s : Signal) : bool :=
  match s with
  | namesChanged | topicChanged | userAdded _ | userRemoved _ => true
  | _ => false
  end.

(** From [w] to [w'] the room has emitted signals that satisfy [P], and
    has taken none back. *)
Definition emits (P : Signal → Prop) (w w' : World) : Prop :=
  ∃ sigs, emitted w' = emitted w ++ sigs ∧ Forall P sigs.

(** The events announced by [newMessage], oldest first. *)
Definition announced_event (s : Signal) : option Event :=
  match s with
  | newMessage event => Some event
  | _ => None
  end.

Definition announced (w : World) : list Event :=
  omap announced_event (emitted w).

(** What an observer of [joinStateChanged] makes of the signals, starting
    from the state [s]: every signal has to start from the state reached so
    far and to lead to another one. *)
Fixpoint replay_joinState (s : JoinState.t) (sigs : list Signal)
    : option JoinState.t :=
  match sigs with
  | [] => Some s
  | joinStateChanged oldState newState :: rest =>
    if bool_decide (oldState = s) && negb (bool_decide (newState = s))
    then replay_joinState newState rest
    else None
  | _ :: rest => replay_joinState s rest
  end.

(** The membership that a [RoomMember] event of [u] asks for, when it is
    Join or Leave. *)
Definition join_leave_of (u : User) (e : Event) : option MembershipType.t :=
  match ev_data e with
  | RoomMemberEvent userId membership _ =>
    if bool_decide (userId = u)
       && (bool_decide (membership = MembershipType.Join)
           || bool_decide (membership = MembershipType.Leave))
    then Some membership
    else None
  | _ => None
  end.

Definition last_join_leave (u : User) (evs : list Event)
    : option MembershipType.t :=
  last (omap (join_leave_of u) evs).

Definition typing_of (e : Event) : option (list User) :=
  match ev_data e with
  | TypingEvent users => Some users
  | _ => None
  end.

Definition last_typing (evs : list Event) : option (list User) :=
  last (omap typing_of evs).

(** The event id of the last entry of a receipt event that holds a
    receipt of [u]. *)
Definition receipt_of (u : User) (entry : string * list Receipt)
    : option string :=
  if bool_decide (u ∈ receipt_userId <$> entry.2) then Some entry.1 else None.

Definition last_receipt (u : User) (receipts : list (string * list Receipt))
    : option string :=
  last (omap (receipt_of u) receipts).

(** The calls that hand events to the room, as one list of state events:
    not needed for the handlers themselves. *)
Definition state_events (w : World) (evs : list Event) : World :=
  foldl (λ w0 e, processStateEvent (Some e) w0) w evs.

(** The two halves of [Room::updateData] behind [setJoinState]: the three
    loops over the events, and the two counters. *)
Definition sync_events (data : SyncRoomData.t) (w : World) : World :=
  foldl (λ w0 ephemeralEvent, processEphemeralEvent ephemeralEvent w0)
    (foldl timelineEvent_step
       (foldl (λ w0 stateEvent, processStateEvent (Some stateEvent) w0)
              w (SyncRoomData.state data))
       (SyncRoomData.timeline data))
    (SyncRoomData.ephemeral data).

Definition sync_counts (data : SyncRoomData.t) (w : World) : World :=
  let w6 :=
    if bool_decide (SyncRoomData.highlightCount data
                    ≠ Private.highlightCount (d w))
    then emit highlightCountChanged
              (upd (Private.set_highlightCount
                      (SyncRoomData.highlightCount data)) w)
    else w in
  if bool_decide (SyncRoomData.notificationCount data
                  ≠ Private.notificationCount (d w6))
  then emit notificationCountChanged
            (upd (Private.set_notificationCount
                    (SyncRoomData.notificationCount data)) w6)
  else w6.

(** The room listens to the [nameChanged] signal of its members, once to
    each. *)
Definition connected
    (ms : QMultiHash.t * list User * gmap User string * list User) : Prop :=
  let '(users, _, _, slots) := ms in
  NoDup slots ∧ ∀ u, u ∈ slots → u ∈ QMultiHash.values users.

(** From [w] to [w'] signals were emitted, [namesChanged] among them if the
    display name is no longer the same. *)
Definition announces_displayname (w w' : World) : Prop :=
  ∃ sigs, emitted w' = emitted w ++ sigs
          ∧ (Private.displayname (d w') ≠ Private.displayname (d w) →
             namesChanged ∈ sigs).

(** A room whose local user is [@a:s], and the Join events of three users
    without display names (all three are filed under the empty name, so
    that the registry hands them out the newest first), in two orders. *)
Definition example_room_of_a : World := Room_new "@a:s" ∅ 0 0 "!room:s".

Definition example_join (u : User) : Event :=
  example_event (RoomMemberEvent u MembershipType.Join "").

Definition example_joins_abc : list Event :=
  [ example_join "@a:s"; example_join "@b:s"; example_join "@c:s" ].

Definition example_joins_cba : list Event :=
  [ example_join "@c:s"; example_join "@b:s"; example_join "@a:s" ].


(** Membership in lists written with [::] and [++]. *)
Ltac list_mem :=
  rewrite ?elem_of_cons, ?elem_of_app, ?elem_of_nil in *;
  intuition (subst; tauto).

Arguments User_processEvent : simpl never.
Arguments updateDisplayname : simpl never.
Arguments renameUser : simpl never.
Arguments roomNameFromMemberNames : simpl never.

(** * Properties *)

(** ** Display name *)

Lemma isEmpty_true s : isEmpty s = true ↔ s = "".
Proof. unfold isEmpty. apply bool_decide_eq_true. Qed.

Lemma isEmpty_false s : isEmpty s = false ↔ s ≠ "".
Proof. unfold isEmpty. apply bool_decide_eq_false. Qed.

Lemma append_nonempty a b : a ≠ "" → a +:+ b ≠ "".
Proof. destruct a; [done | discriminate]. Qed.

Lemma fallback_nonempty i : "Empty room (" +:+ i +:+ ")" ≠ "".
Proof. discriminate. Qed.

Lemma roomNameFromMemberNames_displayname x w l :
  roomNameFromMemberNames (upd (Private.set_displayname x) w) l
  = roomNameFromMemberNames w l.
Proof. reflexivity. Qed.

Lemma first_nonempty_skip cs : first_nonempty ("" :: cs) = first_nonempty cs.
Proof.
  unfold first_nonempty. by rewrite filter_cons_False by (intros H; by apply H).
Qed.

Lemma first_nonempty_take c cs : c ≠ "" → first_nonempty (c :: cs) = c.
Proof. intros H. unfold first_nonempty. by rewrite filter_cons_True. Qed.

Lemma updateDisplayname_store w :
  updateDisplayname w = store_displayname (displayname_spec w) w.
Proof.
  unfold updateDisplayname, store_displayname, displayname_spec,
    displayname_candidates.
  cbv zeta. rewrite !roomNameFromMemberNames_displayname.
  cbn -[roomNameFromMemberNames String.append first_nonempty].
  set (r3 := roomNameFromMemberNames w _).
  set (r4 := roomNameFromMemberNames w _).
  destruct (isEmpty (Private.name (d w))) eqn:Hn; simpl.
  - rewrite first_nonempty_skip.
    destruct (isEmpty (Private.canonicalAlias (d w))) eqn:Ha; simpl.
    + apply isEmpty_true in Ha. rewrite Ha, first_nonempty_skip.
      destruct (isEmpty r3) eqn:H3; simpl.
      * apply isEmpty_true in H3. rewrite H3, first_nonempty_skip.
        destruct (isEmpty r4) eqn:H4; simpl.
        -- apply isEmpty_true in H4. rewrite H4, first_nonempty_skip.
           by rewrite first_nonempty_take by apply fallback_nonempty.
        -- apply isEmpty_false in H4. by rewrite first_nonempty_take.
      * apply isEmpty_false in H3. by rewrite first_nonempty_take.
    + apply isEmpty_false in Ha. by rewrite first_nonempty_take.
  - apply isEmpty_false in Hn.
    destruct (isEmpty (Private.canonicalAlias (d w))) eqn:Ha; simpl.
    + by rewrite first_nonempty_take.
    + by rewrite first_nonempty_take by (by apply append_nonempty).
Qed.

Lemma roomMembername_ext w1 w2 u :
  Private.users (d w1) = Private.users (d w2) →
  userNames w1 = userNames w2 →
  roomMembername w1 u = roomMembername w2 u.
Proof.
  intros Hu Hn. unfold roomMembername, User_name. by rewrite Hu, Hn.
Qed.

Lemma roomNameFromMemberNames_ext w1 w2 l :
  Private.users (d w1) = Private.users (d w2) →
  userNames w1 = userNames w2 →
  localUser w1 = localUser w2 →
  roomNameFromMemberNames w1 l = roomNameFromMemberNames w2 l.
Proof.
  intros Hu Hn Hme. unfold roomNameFromMemberNames, roomMembername_at.
  rewrite Hme.
  destruct (partial_sort_copy _ l _) as [[a|] [b|]]; simpl;
    rewrite ?(roomMembername_ext w1 w2) by done; done.
Qed.

Lemma displayname_spec_ext w1 w2 :
  Private.name (d w1) = Private.name (d w2) →
  Private.canonicalAlias (d w1) = Private.canonicalAlias (d w2) →
  Private.users (d w1) = Private.users (d w2) →
  Private.usersLeft (d w1) = Private.usersLeft (d w2) →
  Private.id (d w1) = Private.id (d w2) →
  userNames w1 = userNames w2 →
  localUser w1 = localUser w2 →
  displayname_spec w1 = displayname_spec w2.
Proof.
  intros Hn Ha Hu Hl Hi Hns Hme.
  unfold displayname_spec, displayname_candidates.
  rewrite Hn, Ha, Hu, Hl, Hi.
  by rewrite !(roomNameFromMemberNames_ext w1 w2).
Qed.

Lemma displayname_spec_store dn w :
  displayname_spec (store_displayname dn w) = displayname_spec w.
Proof.
  apply displayname_spec_ext; unfold store_displayname;
    by case_bool_decide.
Qed.

Lemma displayname_store dn w :
  Private.displayname (d (store_displayname dn w)) = dn.
Proof. unfold store_displayname. by case_bool_decide. Qed.

Lemma emitted_store dn w :
  emitted (store_displayname dn w)
  = emitted w ++ (if bool_decide (Private.displayname (d w) ≠ dn)
                  then [namesChanged] else []).
Proof.
  unfold store_displayname. case_bool_decide; simpl; [done|].
  by rewrite app_nil_r.
Qed.

Lemma store_displayname_twice dn w :
  store_displayname dn (store_displayname dn w) = store_displayname dn w.
Proof.
  unfold store_displayname at 1. rewrite displayname_store.
  rewrite bool_decide_eq_false_2 by (intros H; by apply H).
  unfold store_displayname. by case_bool_decide.
Qed.

(** C4. The display name stored by [updateDisplayname] is the first
    non-empty one of: the room name (with the canonical alias in angle
    brackets behind it when that is not empty), the canonical alias, the
    label made from the members, the label made from the users who left, and
    the text [Empty room (id)].  A room whose canonical alias is [#team:s]
    and that receives the room name [Team] is displayed as
    [Team <#team:s>]. *)
Theorem updateDisplayname_precedence :
  (∀ w, Private.displayname (d (updateDisplayname w)) = displayname_spec w)
  ∧ (∀ w ts,
       Private.displayname
         (d (processStateEvent
               (Some {| ev_timestamp := ts; ev_data := RoomNameEvent "Team" |})
               (upd (Private.set_canonicalAlias "#team:s") w)))
       = "Team <#team:s>").
Proof.
  split.
  - intros w. by rewrite updateDisplayname_store, displayname_store.
  - intros w ts. unfold processStateEvent; simpl.
    by rewrite updateDisplayname_store, displayname_store.
Qed.

(** What [updateDisplayname] reads: the name, the canonical alias, the
    registry as it hands out the members, the list of the users who left
    and the id of the room, with the users' own names and the local user of
    the connection.  Two rooms that agree on them get the same display
    name.  When the computed name is the one the room already has, no
    [namesChanged] is emitted; computing it a second time changes nothing at
    all. *)
Theorem updateDisplayname_deterministic w1 w2 :
  Private.name (d w1) = Private.name (d w2) →
  Private.canonicalAlias (d w1) = Private.canonicalAlias (d w2) →
  Private.users (d w1) = Private.users (d w2) →
  Private.usersLeft (d w1) = Private.usersLeft (d w2) →
  Private.id (d w1) = Private.id (d w2) →
  userNames w1 = userNames w2 →
  localUser w1 = localUser w2 →
  Private.displayname (d (updateDisplayname w1))
  = Private.displayname (d (updateDisplayname w2))
  ∧ (Private.displayname (d (updateDisplayname w1))
     = Private.displayname (d w1) →
     emitted (updateDisplayname w1) = emitted w1)
  ∧ updateDisplayname (updateDisplayname w1) = updateDisplayname w1.
Proof.
  intros Hn Ha Hu Hl Hi Hns Hme.
  rewrite !updateDisplayname_store, !displayname_store.
  split; [by apply displayname_spec_ext|]. split.
  - intros Heq. rewrite emitted_store.
    rewrite bool_decide_eq_false_2 by (intros H; by apply H).
    by rewrite app_nil_r.
  - rewrite displayname_spec_store. apply store_displayname_twice.
Qed.

(** C9. The constructor sets the display name to [Empty room <id>], with
    angle brackets, which is not the fallback [Empty room (id)] of
    [updateDisplayname].  So for a room that still has its constructor's
    display name, no name, no canonical alias, no member and no user who
    left, the first [updateDisplayname] stores the fallback, which is a
    change, and emits [namesChanged]. *)
Theorem first_updateDisplayname_changes me names hc nc w :
  Private.displayname (d w)
  = Private.displayname (d (Room_new me names hc nc (Private.id (d w)))) →
  Private.name (d w) = "" →
  Private.canonicalAlias (d w) = "" →
  Private.users (d w) = [] →
  Private.usersLeft (d w) = [] →
  Private.displayname (d w) = "Empty room <" +:+ Private.id (d w) +:+ ">"
  ∧ Private.displayname (d (updateDisplayname w))
    = "Empty room (" +:+ Private.id (d w) +:+ ")"
  ∧ Private.displayname (d (updateDisplayname w)) ≠ Private.displayname (d w)
  ∧ emitted (updateDisplayname w) = emitted w ++ [namesChanged].
Proof.
  intros Hd Hn Ha Hu Hl. simpl in Hd.
  assert (Hspec : displayname_spec w
                  = "Empty room (" +:+ Private.id (d w) +:+ ")").
  { unfold displayname_spec, displayname_candidates.
    rewrite Hn, Ha, Hu, Hl. simpl.
    rewrite !first_nonempty_skip.
    by rewrite first_nonempty_take by apply fallback_nonempty. }
  assert (Hne : "Empty room (" +:+ Private.id (d w) +:+ ")"
                ≠ "Empty room <" +:+ Private.id (d w) +:+ ">").
  { unfold String.append; fold String.append. congruence. }
  rewrite updateDisplayname_store, displayname_store, emitted_store, Hspec, Hd.
  split; [done|]. split; [done|]. split; [done|].
  by rewrite bool_decide_eq_true_2 by done.
Qed.

(** ** The label made from a list of users *)

Lemma argTokens_lit c t :
  is_percent c = false → argTokens (String c t) = Lit c :: argTokens t.
Proof. intros H. simpl. by rewrite H. Qed.

Lemma QString_arg_prefix a s x :
  percent_free a = true → QString_arg (a +:+ s) x = a +:+ QString_arg s x.
Proof.
  induction a as [|c a IH]; intros Hfree; [done|].
  simpl in Hfree. apply andb_true_iff in Hfree as [Hc Ha].
  apply negb_true_iff in Hc. specialize (IH Ha).
  change (String c a +:+ s) with (String c (a +:+ s)).
  change (String c a +:+ QString_arg s x)
    with (String c (a +:+ QString_arg s x)).
  rewrite <- IH. unfold QString_arg. rewrite argTokens_lit by done. simpl.
  by destruct (min_escape (argTokens (a +:+ s))).
Qed.

Lemma and_others_format a n :
  percent_free a = true →
  QString_arg_int (QString_arg "%1 and %2 others" a) n
  = a +:+ " and " +:+ pretty n +:+ " others".
Proof.
  intros Hfree. unfold QString_arg_int.
  change (QString_arg "%1 and %2 others" a) with (a +:+ " and %2 others").
  by rewrite QString_arg_prefix.
Qed.

Lemma heap_select_elem comp heap e x :
  x ∈ [(heap_select comp heap e).1; (heap_select comp heap e).2] →
  x ∈ [heap.1; heap.2; e].
Proof.
  unfold heap_select.
  destruct (comp e heap.1); [destruct (comp heap.2 e)|]; simpl; list_mem.
Qed.

Lemma heap_select_foldl_elem comp rest heap x :
  x ∈ [(foldl (heap_select comp) heap rest).1;
       (foldl (heap_select comp) heap rest).2] →
  x ∈ heap.1 :: heap.2 :: rest.
Proof.
  revert heap. induction rest as [|e rest IH]; intros heap H; simpl in *.
  - done.
  - apply IH in H. pose proof (heap_select_elem comp heap e x) as He.
    list_mem.
Qed.

(** With two users or more in the list, both slots of [first_two] hold a
    user of the list: no null pointer is handed to [roomMembername]. *)
Lemma partial_sort_copy_filled comp (l : list User) r :
  (2 ≤ length l)%nat →
  ∃ a b, partial_sort_copy comp l r = (Some a, Some b) ∧ a ∈ l ∧ b ∈ l.
Proof.
  intros Hlen. destruct l as [|x [|y rest]]; simpl in Hlen; [lia|lia|].
  unfold partial_sort_copy.
  set (heap := if comp y x then (x, y) else (y, x)).
  eexists _, _. split; [done|].
  assert (Hheap : ∀ z, z ∈ heap.1 :: heap.2 :: rest → z ∈ x :: y :: rest).
  { intros z. unfold heap. destruct (comp y x); simpl; list_mem. }
  split; apply Hheap, (heap_select_foldl_elem comp); list_mem.
Qed.

(** C3, in the form that holds of the code.  The label is chosen by the
    length [n] of the whole list handed to [roomNameFromMemberNames], the
    local user counted when it is in the list.  Below two users the label is empty; from two users on, with
    [a] and [b] the users that [std::partial_sort_copy] puts in the two slots
    of [first_two]: [n = 2] gives the name of [a], [n = 3] gives
    [A and B], and [n > 3] gives [A and N others] with [N = n - 3], for a
    name [A] that holds no [%]. *)
Theorem roomNameFromMemberNames_by_size w userlist :
  let label := roomNameFromMemberNames w userlist in
  let n := length userlist in
  ((n < 2)%nat → label = "")
  ∧ ((2 ≤ n)%nat →
     ∃ a b,
       partial_sort_copy
         (λ u1 u2, negb (bool_decide (u1 = localUser w))
                   && QString_lt (User_id u1) (User_id u2))
         userlist (None, None) = (Some a, Some b)
       ∧ a ∈ userlist ∧ b ∈ userlist
       ∧ (n = 2 → label = roomMembername w a)
       ∧ (n = 3 →
          label = roomMembername w a +:+ " and " +:+ roomMembername w b)
       ∧ ((3 < n)%nat → percent_free (roomMembername w a) = true →
          label = roomMembername w a +:+ " and "
                    +:+ pretty (Z.of_nat n - 3)%Z +:+ " others")).
Proof.
  intros label n. split.
  - intros Hn. subst label n. unfold roomNameFromMemberNames.
    destruct userlist as [|x [|y rest]]; simpl in *; [done|done|lia].
  - intros Hn.
    destruct (partial_sort_copy_filled
                (λ u1 u2, negb (bool_decide (u1 = localUser w))
                          && QString_lt (User_id u1) (User_id u2))
                userlist (None, None) Hn) as (a & b & Hft & Ha & Hb).
    exists a, b. split; [done|]. split; [done|]. split; [done|].
    subst label. unfold roomNameFromMemberNames. rewrite Hft. simpl.
    fold n. split; [|split].
    + intros ->. done.
    + intros ->. done.
    + intros Hgt Hfree.
      destruct (n =? 2)%nat eqn:H2; [apply Nat.eqb_eq in H2; lia|].
      destruct (n =? 3)%nat eqn:H3; [apply Nat.eqb_eq in H3; lia|].
      destruct (3 <? n)%nat eqn:H4; [|apply Nat.ltb_ge in H4; lia].
      by apply and_others_format.
Qed.

(** ** Backward pagination *)

Lemma elem_of_insertEvent (events : list Event) event x :
  x ∈ insertEvent events event ↔ x = event ∨ x ∈ events.
Proof.
  unfold insertEvent, QList_insert.
  set (i := findEarliestAfterMe event events).
  assert (H : x ∈ events ↔ x ∈ take i events ∨ x ∈ drop i events).
  { rewrite <- elem_of_app. by rewrite take_drop. }
  rewrite elem_of_app, elem_of_cons, H. tauto.
Qed.

Lemma elem_of_foldl_insertEvent (evs events : list Event) x :
  x ∈ foldl insertEvent events evs ↔ x ∈ evs ∨ x ∈ events.
Proof.
  revert events. induction evs as [|e evs IH]; intros events; simpl.
  - rewrite elem_of_nil. tauto.
  - rewrite IH, elem_of_insertEvent, elem_of_cons. tauto.
Qed.

(** The loop of [gotMessages] inserts the events and announces them, and
    does nothing else. *)
Lemma gotMessages_loop evs w :
  foldl gotMessages_step w evs
  = mkWorld
      (Private.set_messageEvents
         (foldl insertEvent (Private.messageEvents (d w)) evs) (d w))
      (localUser w) (userNames w) (nameChangedSlots w) (jobs w)
      (emitted w ++ (newMessage <$> evs)).
Proof.
  revert w. induction evs as [|e evs IH]; intros w; simpl.
  - rewrite app_nil_r. by destruct w as [[] ? ? ? ? ?].
  - rewrite IH. simpl. by rewrite <- app_assoc.
Qed.

(** C2, in the form that holds of the code.  When the job has no error,
    [gotMessages] inserts every returned event into the timeline, in the order received, and emits
    [newMessage] for each; then [prevBatch] is the token returned by the job
    and [gettingNewContent] is false.  The events are not handed to the
    state-event handler: apart from the timeline, the token and the flag
    the room is as before, and only [newMessage] signals are emitted. *)
Theorem gotMessages_success job w :
  RoomMessagesJob.error job = 0%Z →
  let w' := gotMessages job w in
  Private.messageEvents (d w')
  = foldl insertEvent (Private.messageEvents (d w)) (RoomMessagesJob.events job)
  ∧ (∀ e, e ∈ RoomMessagesJob.events job → e ∈ Private.messageEvents (d w'))
  ∧ emitted w' = emitted w ++ (newMessage <$> RoomMessagesJob.events job)
  ∧ Private.prevBatch (d w') = RoomMessagesJob.end_ job
  ∧ Private.gettingNewContent (d w') = false
  ∧ d w' = Private.set_gettingNewContent false
             (Private.set_prevBatch (RoomMessagesJob.end_ job)
                (Private.set_messageEvents (Private.messageEvents (d w'))
                                           (d w)))
  ∧ userNames w' = userNames w
  ∧ nameChangedSlots w' = nameChangedSlots w
  ∧ jobs w' = jobs w.
Proof.
  intros Herr w'. subst w'. unfold gotMessages.
  rewrite bool_decide_eq_false_2 by (intros H; by apply H).
  rewrite gotMessages_loop. simpl.
  split; [done|]. split; [|done].
  intros e He. apply elem_of_foldl_insertEvent. by left.
Qed.

(** C5. When the job ended with an error, [gotMessages] leaves
    [gettingNewContent] false, and [prevBatch] and the timeline as they
    were, also as they were before the [getPreviousContent] that started
    the fetch.  With or without error, [gettingNewContent] is false after
    [gotMessages]. *)
Theorem gotMessages_failure job w :
  RoomMessagesJob.error job ≠ 0%Z →
  (Private.gettingNewContent (d (gotMessages job w)) = false
   ∧ Private.prevBatch (d (gotMessages job w)) = Private.prevBatch (d w)
   ∧ Private.messageEvents (d (gotMessages job w))
     = Private.messageEvents (d w))
  ∧ (Private.gettingNewContent
       (d (gotMessages job (getPreviousContent w))) = false
     ∧ Private.prevBatch (d (gotMessages job (getPreviousContent w)))
       = Private.prevBatch (d w)
     ∧ Private.messageEvents (d (gotMessages job (getPreviousContent w)))
       = Private.messageEvents (d w))
  ∧ (∀ job' w0, Private.gettingNewContent (d (gotMessages job' w0)) = false).
Proof.
  intros Herr. unfold gotMessages, getPreviousContent.
  rewrite !bool_decide_eq_true_2 by done.
  split; [done|]. split; [|done].
  by destruct (negb (Private.gettingNewContent (d w))).
Qed.

(** *** Nothing but the pagination touches the jobs and the flag *)

Lemma foldl_fetch_state {A} (f : World → A → World) (l : list A) w :
  (∀ w0 x, fetch_state (f w0 x) = fetch_state w0) →
  fetch_state (foldl f w l) = fetch_state w.
Proof.
  intros Hf. revert w. induction l as [|x l IH]; intros w; simpl; [done|].
  by rewrite IH, Hf.
Qed.

Lemma fetch_state_updateDisplayname w :
  fetch_state (updateDisplayname w) = fetch_state w.
Proof.
  rewrite updateDisplayname_store. unfold store_displayname.
  by case_bool_decide.
Qed.

Lemma fetch_state_renameUser u oldName w :
  fetch_state (renameUser u oldName w) = fetch_state w.
Proof.
  unfold renameUser. destruct (contains _ u); [|done].
  by rewrite fetch_state_updateDisplayname.
Qed.

Lemma fetch_state_userRenamed_iter n u oldName w :
  fetch_state (Nat.iter n (userRenamed u oldName) w) = fetch_state w.
Proof.
  induction n as [|n IH]; simpl; [done|].
  unfold userRenamed at 1. by rewrite fetch_state_renameUser.
Qed.

Lemma fetch_state_User_processEvent u e w :
  fetch_state (User_processEvent u e w) = fetch_state w.
Proof.
  destruct e; try done. unfold User_processEvent. case_bool_decide; [done|].
  by rewrite fetch_state_userRenamed_iter.
Qed.

Lemma fetch_state_processStateEvent event w :
  fetch_state (processStateEvent event w) = fetch_state w.
Proof.
  destruct event as [[ts e]|]; [|done].
  destruct e; simpl; rewrite ?fetch_state_updateDisplayname; try done.
  set (w1 := User_processEvent _ _ w).
  assert (H1 : fetch_state w1 = fetch_state w)
    by apply fetch_state_User_processEvent.
  rewrite <- H1. clearbody w1.
  destruct (_ && _); [by rewrite fetch_state_updateDisplayname|].
  case_bool_decide; [|done].
  rewrite fetch_state_updateDisplayname. by repeat case_match.
Qed.

Lemma fetch_state_processEphemeralEvent event w :
  fetch_state (processEphemeralEvent event w) = fetch_state w.
Proof.
  unfold processEphemeralEvent. destruct (ev_data event); try done.
  apply foldl_fetch_state. intros w0 [eventId rs].
  by apply foldl_fetch_state.
Qed.

Lemma fetch_state_setJoinState state w :
  fetch_state (setJoinState state w) = fetch_state w.
Proof. unfold setJoinState. by case_bool_decide. Qed.

Lemma fetch_state_timelineEvent_step w e :
  fetch_state (timelineEvent_step w e) = fetch_state w.
Proof. unfold timelineEvent_step. by rewrite fetch_state_processStateEvent. Qed.

Lemma fetch_state_updateData data w :
  Private.gettingNewContent (d (updateData data w))
  = Private.gettingNewContent (d w)
  ∧ jobs (updateData data w) = jobs w.
Proof.
  assert (H : fetch_state (updateData data w) = fetch_state w).
  { unfold updateData.
    set (w1 := if isEmpty _ then _ else w).
    assert (H1 : fetch_state w1 = fetch_state w) by (subst w1; by case_match).
    rewrite <- H1. clearbody w1. cbv zeta.
    assert (Hloops :
      fetch_state
        (foldl (λ w0 ephemeralEvent, processEphemeralEvent ephemeralEvent w0)
           (foldl timelineEvent_step
              (foldl (λ w0 stateEvent, processStateEvent (Some stateEvent) w0)
                 (setJoinState (SyncRoomData.joinState data) w1)
                 (SyncRoomData.state data))
              (SyncRoomData.timeline data))
           (SyncRoomData.ephemeral data))
      = fetch_state w1).
    { rewrite (foldl_fetch_state (λ w0 e, processEphemeralEvent e w0))
        by (intros; apply fetch_state_processEphemeralEvent).
      rewrite (foldl_fetch_state timelineEvent_step)
        by (intros; apply fetch_state_timelineEvent_step).
      rewrite (foldl_fetch_state (λ w0 e, processStateEvent (Some e) w0))
        by (intros; apply fetch_state_processStateEvent).
      apply fetch_state_setJoinState. }
    rewrite <- Hloops. by repeat case_bool_decide. }
  unfold fetch_state in H. by injection H.
Qed.

(** The guard keeps the flag and the jobs in step: a job is under way
    exactly when [gettingNewContent] is set, and then there is one. *)
Lemma single_flight_step w c :
  length (jobs w) = (if Private.gettingNewContent (d w) then 1 else 0)%nat →
  length (jobs (step w c))
  = (if Private.gettingNewContent (d (step w c)) then 1 else 0)%nat.
Proof.
  intros Hinv. destruct c; simpl.
  - by destruct (fetch_state_updateData data w) as [-> ->].
  - done.
  - unfold addInitialState.
    pose proof (fetch_state_processStateEvent event w) as H.
    unfold fetch_state in H. injection H as -> ->. done.
  - pose proof (fetch_state_setJoinState state w) as H.
    unfold fetch_state in H. injection H as -> ->. done.
  - unfold resetNotificationCount. by case_bool_decide.
  - unfold resetHighlightCount. by case_bool_decide.
  - unfold getPreviousContent.
    destruct (Private.gettingNewContent (d w)) eqn:Hg; simpl.
    + by rewrite Hg.
    + rewrite length_app. simpl. lia.
  - destruct (jobs w) as [|j rest] eqn:Hj; [by rewrite Hj|].
    unfold gotMessages. simpl in Hinv.
    destruct (Private.gettingNewContent (d w)); [|done].
    case_bool_decide; simpl.
    + lia.
    + rewrite gotMessages_loop. simpl. lia.
Qed.

Lemma single_flight_run cs w :
  length (jobs w) = (if Private.gettingNewContent (d w) then 1 else 0)%nat →
  length (jobs (run cs w))
  = (if Private.gettingNewContent (d (run cs w)) then 1 else 0)%nat.
Proof.
  revert w. induction cs as [|c cs IH]; intros w Hinv; [done|].
  apply (IH (step w c)). by apply single_flight_step.
Qed.

(** C6. In a room used from its construction on, at most one job is under
    way at any time; and [getPreviousContent], called while
    [gettingNewContent] is set, changes nothing: the room, the jobs and the
    emitted signals are what they were. *)
Theorem getPreviousContent_single_flight me names hc nc id cs :
  let w := run cs (Room_new me names hc nc id) in
  (length (jobs w) ≤ 1)%nat
  ∧ (Private.gettingNewContent (d w) = true →
     getPreviousContent w = w
     ∧ jobs (getPreviousContent w) = jobs w
     ∧ length (jobs (getPreviousContent w)) = 1%nat).
Proof.
  intros w.
  assert (Hinv : length (jobs w)
                 = (if Private.gettingNewContent (d w) then 1 else 0)%nat).
  { subst w. by apply single_flight_run. }
  split.
  - rewrite Hinv. destruct (Private.gettingNewContent (d w)); lia.
  - intros Hg. unfold getPreviousContent. rewrite Hg in *. done.
Qed.

(** ** Membership *)

Lemma contains_true {A} `{EqDecision A} (l : list A) x :
  contains l x = true ↔ x ∈ l.
Proof. unfold contains. apply bool_decide_eq_true. Qed.

Lemma contains_false {A} `{EqDecision A} (l : list A) x :
  contains l x = false ↔ x ∉ l.
Proof. unfold contains. apply bool_decide_eq_false. Qed.

Lemma elem_of_values_of (h : QMultiHash.t) key u :
  u ∈ QMultiHash.values_of h key ↔ (key, u) ∈ h.
Proof.
  unfold QMultiHash.values_of. rewrite list_elem_of_fmap. split.
  - intros ([k v] & -> & [Hk Hin]%list_elem_of_filter). simpl in *. by subst.
  - intros Hin. exists (key, u). split; [done|].
    by apply list_elem_of_filter.
Qed.

Lemma elem_of_values (h : QMultiHash.t) u :
  u ∈ QMultiHash.values h ↔ ∃ key, (key, u) ∈ h.
Proof.
  unfold QMultiHash.values. rewrite list_elem_of_fmap. split.
  - intros ([k v] & -> & Hin). by exists k.
  - intros [key Hin]. by exists (key, u).
Qed.

Lemma elem_of_remove (h : QMultiHash.t) key u p :
  p ∈ QMultiHash.remove key u h ↔ p ≠ (key, u) ∧ p ∈ h.
Proof.
  unfold QMultiHash.remove.
  apply (list_elem_of_filter (λ q : string * User, q ≠ (key, u))).
Qed.

Lemma NoDup_values_remove (h : QMultiHash.t) key u :
  NoDup (QMultiHash.values h) → NoDup (QMultiHash.values (QMultiHash.remove key u h)).
Proof.
  unfold QMultiHash.values, QMultiHash.remove. intros Hnd.
  eapply sublist_NoDup; [done|]. apply fmap_sublist, sublist_filter.
Qed.

Lemma occurrences_NoDup u (l : list User) : NoDup l → (occurrences u l ≤ 1)%nat.
Proof.
  unfold occurrences. induction 1 as [|x l Hx Hnd IH]; simpl; [lia|].
  rewrite filter_cons. destruct (decide (x = u)) as [->|]; [|done].
  simpl. assert (Hnil : filter (λ x, x = u) l = []); [|rewrite Hnil; simpl; lia].
  apply elem_of_nil_inv. intros y [-> Hy]%list_elem_of_filter. done.
Qed.

Lemma occurrences_zero u (l : list User) : occurrences u l = 0%nat ↔ u ∉ l.
Proof.
  unfold occurrences. rewrite length_zero_iff_nil. split.
  - intros Hnil Hin.
    assert (Hu : u ∈ filter (λ x, x = u) l) by by apply list_elem_of_filter.
    rewrite Hnil in Hu. by apply elem_of_nil in Hu.
  - intros Hnin. apply elem_of_nil_inv.
    intros y [-> Hy]%list_elem_of_filter. done.
Qed.

Lemma member_state_updateDisplayname w :
  member_state (updateDisplayname w) = member_state w.
Proof.
  rewrite updateDisplayname_store. unfold store_displayname.
  by case_bool_decide.
Qed.

Lemma remove_absent (h : QMultiHash.t) key u :
  (key, u) ∉ h → QMultiHash.remove key u h = h.
Proof.
  intros Hnin. unfold QMultiHash.remove.
  induction h as [|p h IH]; [done|].
  apply not_elem_of_cons in Hnin as [Hp Hh].
  rewrite filter_cons_True by (intros ->; by apply Hp). by rewrite IH.
Qed.

(** *** Renaming *)

Lemma User_name_renamed u newName w :
  User_name (set_userNames (<[u:=newName]> (userNames w)) w) u = newName.
Proof. unfold User_name. simpl. by rewrite lookup_insert_eq. Qed.

Lemma User_name_renamed_ne u v newName w :
  u ≠ v →
  User_name (set_userNames (<[u:=newName]> (userNames w)) w) v = User_name w v.
Proof. intros Hne. unfold User_name. simpl. by rewrite lookup_insert_ne. Qed.

Lemma renameUser_absent u oldName w :
  (oldName, u) ∉ Private.users (d w) → renameUser u oldName w = w.
Proof.
  intros Hnin. unfold renameUser.
  rewrite (proj2 (contains_false _ _)); [done|].
  by rewrite elem_of_values_of.
Qed.

Lemma renameUser_present u oldName w :
  (oldName, u) ∈ Private.users (d w) →
  member_state (renameUser u oldName w)
  = ((User_name w u, u) :: QMultiHash.remove oldName u (Private.users (d w)),
     Private.usersLeft (d w), userNames w, nameChangedSlots w).
Proof.
  intros Hin. unfold renameUser.
  rewrite (proj2 (contains_true _ _)) by by rewrite elem_of_values_of.
  by rewrite member_state_updateDisplayname.
Qed.

Lemma renameUser_not_old u oldName w :
  oldName ≠ User_name w u →
  (oldName, u) ∉ Private.users (d (renameUser u oldName w)).
Proof.
  intros Hne. destruct (decide ((oldName, u) ∈ Private.users (d w))) as [Hin|Hnin].
  - pose proof (renameUser_present u oldName w Hin) as Hms.
    unfold member_state in Hms. injection Hms as -> _ _ _.
    rewrite not_elem_of_cons. split; [congruence|].
    rewrite elem_of_remove. tauto.
  - by rewrite renameUser_absent.
Qed.

Lemma userRenamed_iter n u oldName w :
  oldName ≠ User_name w u →
  Nat.iter (S n) (userRenamed u oldName) w = renameUser u oldName w.
Proof.
  intros Hne. induction n as [|n IH]; [done|].
  change (Nat.iter (S (S n)) (userRenamed u oldName) w)
    with (renameUser u oldName (Nat.iter (S n) (userRenamed u oldName) w)).
  rewrite IH. apply renameUser_absent. by apply renameUser_not_old.
Qed.

(** What [User::processEvent] comes to for the room: a new name is stored,
    and when the room listens it files the user under the new name. *)
Lemma User_processEvent_member u userId membership displayName w :
  User_processEvent u (RoomMemberEvent userId membership displayName) w
  = if bool_decide (User_name w u = displayName) then w
    else
      let w1 := set_userNames (<[u:=displayName]> (userNames w)) w in
      if bool_decide (u ∈ nameChangedSlots w)
      then renameUser u (User_name w u) w1
      else w1.
Proof.
  unfold User_processEvent. case_bool_decide as Hname; [done|].
  cbv zeta. simpl nameChangedSlots.
  fold (occurrences u (nameChangedSlots w)).
  case_bool_decide as Hin.
  - destruct (occurrences u (nameChangedSlots w)) as [|n] eqn:Hocc.
    + by apply occurrences_zero in Hocc.
    + apply userRenamed_iter. by rewrite User_name_renamed.
  - apply occurrences_zero in Hin. by rewrite Hin.
Qed.

Lemma member_state_renameUser u oldName w :
  member_state (renameUser u oldName w)
  = (if bool_decide ((oldName, u) ∈ Private.users (d w))
     then (User_name w u, u) :: QMultiHash.remove oldName u (Private.users (d w))
     else Private.users (d w),
     Private.usersLeft (d w), userNames w, nameChangedSlots w).
Proof.
  case_bool_decide as Hin.
  - by apply renameUser_present.
  - by rewrite renameUser_absent.
Qed.

(** *** A member event, seen from the membership *)

Lemma member_state_processStateEvent ts u membership displayName w :
  member_state
    (processStateEvent
       (Some {| ev_timestamp := ts;
                ev_data := RoomMemberEvent u membership displayName |}) w)
  = member_transition u membership
      (member_state
         (User_processEvent u (RoomMemberEvent u membership displayName) w)).
Proof.
  unfold processStateEvent. simpl.
  set (wa := User_processEvent _ _ w).
  unfold member_transition, member_state at 2.
  fold (User_name wa u).
  destruct (_ && _); [by rewrite member_state_updateDisplayname|].
  case_bool_decide; [|done].
  rewrite member_state_updateDisplayname.
  destruct (contains (QMultiHash.values_of _ _) u) eqn:Hc.
  - simpl. unfold member_state.
    destruct (contains (Private.usersLeft (d wa)) u); done.
  - apply contains_false in Hc. rewrite elem_of_values_of in Hc.
    rewrite (remove_absent _ _ _ Hc). unfold member_state.
    destruct (contains (Private.usersLeft (d wa)) u); done.
Qed.

Lemma member_state_User_processEvent u userId membership displayName w :
  member_state
    (User_processEvent u (RoomMemberEvent userId membership displayName) w)
  = if bool_decide (User_name w u = displayName) then member_state w
    else
      (if bool_decide (u ∈ nameChangedSlots w
                       ∧ (User_name w u, u) ∈ Private.users (d w))
       then (displayName, u)
              :: QMultiHash.remove (User_name w u) u (Private.users (d w))
       else Private.users (d w),
       Private.usersLeft (d w), <[u:=displayName]> (userNames w),
       nameChangedSlots w).
Proof.
  rewrite User_processEvent_member. case_bool_decide as Hname; [done|].
  cbv zeta. case_bool_decide as Hslot.
  - rewrite member_state_renameUser. simpl.
    rewrite User_name_renamed.
    case_bool_decide as Hin.
    + by rewrite bool_decide_eq_true_2.
    + rewrite bool_decide_eq_false_2; [done|]. tauto.
  - rewrite bool_decide_eq_false_2; [done|]. tauto.
Qed.

(** *** The registry stays consistent *)

Lemma consistent_key_unique users usersLeft names slots key (u : User) :
  consistent (users, usersLeft, names, slots) →
  (key, u) ∈ users → key = default "" (names !! u).
Proof. intros (_ & _ & Hkey) Hin. by apply Hkey. Qed.

Lemma consistent_User_processEvent u userId membership displayName w :
  registry_consistent w →
  registry_consistent
    (User_processEvent u (RoomMemberEvent userId membership displayName) w).
Proof.
  unfold registry_consistent. rewrite member_state_User_processEvent.
  case_bool_decide as Hname; [done|].
  unfold member_state, User_name in *.
  intros (Hleft & Hnd & Hkey). case_bool_decide as Hpresent.
  - destruct Hpresent as [Hslot Hin].
    split; [done|]. split.
    + unfold QMultiHash.values in *. rewrite fmap_cons. simpl.
      apply NoDup_cons. split; [|by apply NoDup_values_remove].
      intros [key Hk]%elem_of_values. apply elem_of_remove in Hk as [Hne Hk].
      apply Hkey in Hk as [-> _]. done.
    + intros key v [Heq|Hk]%elem_of_cons.
      * injection Heq as -> ->. by rewrite lookup_insert_eq.
      * apply elem_of_remove in Hk as [Hne Hk].
        destruct (Hkey _ _ Hk) as [-> Hslotv].
        rewrite lookup_insert_ne; [done|]. by intros ->.
  - split; [done|]. split; [done|].
    intros key v Hk. destruct (Hkey _ _ Hk) as [-> Hslotv].
    rewrite lookup_insert_ne; [done|]. intros ->. by apply Hpresent.
Qed.

Lemma consistent_member_transition u membership ms :
  consistent ms → consistent (member_transition u membership ms).
Proof.
  destruct ms as [[[users usersLeft] names] slots].
  intros (Hleft & Hnd & Hkey). unfold member_transition.
  destruct (_ && _) eqn:Hjoin.
  - apply andb_true_iff in Hjoin as [_ Hc]. apply negb_true_iff in Hc.
    apply contains_false in Hc. rewrite elem_of_values_of in Hc.
    split; [done|]. split.
    + unfold QMultiHash.insert, QMultiHash.values in *.
      rewrite fmap_cons. simpl. apply NoDup_cons. split; [|done].
      intros [key Hk]%elem_of_values.
      destruct (Hkey _ _ Hk) as [-> _]. done.
    + intros key v [Heq|Hk]%elem_of_cons.
      * injection Heq as -> ->. split; [done|].
        apply elem_of_app. right. by left.
      * destruct (Hkey _ _ Hk) as [-> Hslotv]. split; [done|].
        apply elem_of_app. by left.
  - clear Hjoin.
    case_bool_decide; [|exact (conj Hleft (conj Hnd Hkey))]. split; [|split].
    + destruct (contains usersLeft u) eqn:Hc; [done|].
      apply contains_false in Hc. apply NoDup_app.
      split; [done|]. split; [|apply NoDup_singleton].
      intros x Hx ->%list_elem_of_singleton. done.
    + by apply NoDup_values_remove.
    + intros key v [Hne Hk]%elem_of_remove.
      destruct (Hkey _ _ Hk) as [-> Hslotv]. split; [done|].
      apply list_elem_of_filter. split; [|done]. by intros ->.
Qed.

Lemma member_state_processStateEvent_other ts e w :
  event_membership {| ev_timestamp := ts; ev_data := e |} = None →
  member_state (processStateEvent (Some {| ev_timestamp := ts; ev_data := e |}) w)
  = member_state w.
Proof.
  destruct e; try done; intros _; simpl;
    by rewrite ?member_state_updateDisplayname.
Qed.

Lemma consistent_processStateEvent event w :
  registry_consistent w → registry_consistent (processStateEvent event w).
Proof.
  intros Hw. destruct event as [[ts e]|]; [|done].
  destruct (event_membership {| ev_timestamp := ts; ev_data := e |}) eqn:Hm.
  - destruct e; try done. unfold registry_consistent.
    rewrite member_state_processStateEvent.
    by apply consistent_member_transition, consistent_User_processEvent.
  - unfold registry_consistent.
    by rewrite member_state_processStateEvent_other.
Qed.

Lemma consistent_foldl evs w :
  registry_consistent w →
  registry_consistent (foldl (λ w0 e, processStateEvent (Some e) w0) w evs).
Proof.
  revert w. induction evs as [|e evs IH]; intros w Hw; [done|].
  cbn [foldl]. by apply IH, consistent_processStateEvent.
Qed.

Lemma consistent_Room_new me names hc nc id :
  registry_consistent (Room_new me names hc nc id).
Proof.
  unfold registry_consistent. simpl.
  split; [constructor|]. split; [constructor|].
  intros key u Hin. by apply elem_of_nil in Hin.
Qed.

(** *** After a Leave, after a Join *)

Lemma member_transition_leave u ms :
  consistent ms →
  (u ∉ QMultiHash.values (member_transition u MembershipType.Leave ms).1.1.1)
  ∧ (u ∈ (member_transition u MembershipType.Leave ms).1.1.2).
Proof.
  destruct ms as [[[users usersLeft] names] slots].
  intros (Hleft & Hnd & Hkey). simpl. split.
  - intros [key Hk]%elem_of_values.
    apply elem_of_remove in Hk as [Hne Hk].
    destruct (Hkey _ _ Hk) as [-> _]. done.
  - destruct (contains usersLeft u) eqn:Hc; simpl.
    + by apply contains_true in Hc.
    + apply elem_of_app. right. by left.
Qed.

Lemma member_transition_join u ms :
  u ∈ QMultiHash.values (member_transition u MembershipType.Join ms).1.1.1.
Proof.
  destruct ms as [[[users usersLeft] names] slots]. simpl.
  destruct (contains _ u) eqn:Hc; simpl.
  - apply contains_true in Hc. rewrite elem_of_values_of in Hc.
    apply elem_of_values. eauto.
  - by left.
Qed.

Lemma member_transition_usersLeft u membership ms :
  membership ≠ MembershipType.Leave →
  (member_transition u membership ms).1.1.2 = ms.1.1.2.
Proof.
  destruct ms as [[[users usersLeft] names] slots]. intros Hm.
  unfold member_transition. destruct (_ && _); [done|].
  by rewrite bool_decide_eq_false_2.
Qed.

Lemma usersLeft_User_processEvent u e w :
  Private.usersLeft (d (User_processEvent u e w)) = Private.usersLeft (d w).
Proof.
  destruct e; try done.
  pose proof (member_state_User_processEvent u userId membership displayName w)
    as Hms.
  case_bool_decide; unfold member_state in Hms; by injection Hms.
Qed.

Lemma usersLeft_processStateEvent event w :
  event_membership event ≠ Some MembershipType.Leave →
  Private.usersLeft (d (processStateEvent (Some event) w))
  = Private.usersLeft (d w).
Proof.
  intros Hm. destruct event as [ts e].
  destruct (event_membership {| ev_timestamp := ts; ev_data := e |}) eqn:He.
  - destruct e; try done.
    transitivity
      ((member_state
          (processStateEvent
             (Some {| ev_timestamp := ts;
                      ev_data := RoomMemberEvent userId membership displayName |})
             w)).1.1.2); [done|].
    rewrite member_state_processStateEvent, member_transition_usersLeft.
    + apply usersLeft_User_processEvent.
    + intros ->. by apply Hm.
  - pose proof (member_state_processStateEvent_other ts e w He) as Hms.
    by apply (f_equal (λ ms, ms.1.1.2)) in Hms.
Qed.

Lemma usersLeft_foldl evs w :
  Forall (λ e, event_membership e ≠ Some MembershipType.Leave) evs →
  Private.usersLeft (d (foldl (λ w0 e, processStateEvent (Some e) w0) w evs))
  = Private.usersLeft (d w).
Proof.
  revert w. induction evs as [|e evs IH]; intros w Hall; [done|].
  apply Forall_cons in Hall as [He Hall]. cbn [foldl].
  rewrite IH by done. by apply usersLeft_processStateEvent.
Qed.

Lemma join_leave_event u e :
  is_join_leave_of u e = true →
  ∃ ts membership displayName,
    e = {| ev_timestamp := ts;
           ev_data := RoomMemberEvent u membership displayName |}.
Proof.
  destruct e as [ts []]; try done. unfold is_join_leave_of. simpl.
  intros [Hu _]%andb_true_iff. apply bool_decide_eq_true in Hu as ->. eauto.
Qed.

Lemma usersLeft_prefix_processStateEvent event w :
  Private.usersLeft (d w) `prefix_of`
    Private.usersLeft (d (processStateEvent event w)).
Proof.
  destruct event as [[ts e]|]; [|done].
  destruct (event_membership {| ev_timestamp := ts; ev_data := e |})
    as [m|] eqn:Hm.
  - destruct e; try done.
    pose proof (member_state_processStateEvent ts userId membership
                  displayName w) as Hms.
    pose proof (usersLeft_User_processEvent userId
                  (RoomMemberEvent userId membership displayName) w) as Hl.
    set (w' := processStateEvent _ w) in *. clearbody w'.
    set (wa := User_processEvent _ _ w) in *. clearbody wa.
    change (Private.usersLeft (d w')) with (member_state w').1.1.2.
    rewrite Hms, <- Hl. unfold member_state, member_transition.
    destruct (_ && _); [done|]. case_bool_decide; [|done]. simpl.
    destruct (contains _ userId); [done|]. by apply prefix_app_r.
  - pose proof (member_state_processStateEvent_other ts e w Hm) as Hms.
    set (w' := processStateEvent _ w) in *. clearbody w'.
    unfold member_state in Hms. by injection Hms as _ -> _ _.
Qed.

Lemma usersLeft_prefix_foldl evs w :
  Private.usersLeft (d w) `prefix_of`
    Private.usersLeft (d (foldl (λ w0 e, processStateEvent (Some e) w0) w evs)).
Proof.
  revert w. induction evs as [|e evs IH]; intros w; cbn [foldl]; [done|].
  etrans; [apply (usersLeft_prefix_processStateEvent (Some e))|apply IH].
Qed.

Lemma usersLeft_after_leave ts u displayName w :
  u ∈ Private.usersLeft
        (d (processStateEvent
              (Some {| ev_timestamp := ts;
                       ev_data :=
                         RoomMemberEvent u MembershipType.Leave displayName |})
              w)).
Proof.
  pose proof (member_state_processStateEvent ts u MembershipType.Leave
                displayName w) as Hms.
  set (w' := processStateEvent _ w) in *. clearbody w'.
  change (Private.usersLeft (d w')) with (member_state w').1.1.2.
  rewrite Hms.
  destruct (member_state (User_processEvent u _ w)) as [[[us lf] ns] sl].
  unfold member_transition. simpl. destruct (contains lf u) eqn:Hc.
  - by apply contains_true.
  - apply elem_of_app. right. by left.
Qed.

Lemma usersLeft_leave_foldl u evs w :
  Forall (λ e, is_join_leave_of u e = true) evs →
  Exists (λ e, event_membership e = Some MembershipType.Leave) evs →
  u ∈ Private.usersLeft
        (d (foldl (λ w0 e, processStateEvent (Some e) w0) w evs)).
Proof.
  revert w. induction evs as [|e evs IH]; intros w Hall Hex.
  - by apply Exists_nil in Hex.
  - apply Forall_cons in Hall as [He Hall]. cbn [foldl].
    apply Exists_cons in Hex as [Hleave|Hex]; [|by apply IH].
    apply join_leave_event in He as (ts & m & dn & ->).
    injection Hleave as ->.
    eapply elem_of_prefix; [apply usersLeft_after_leave|].
    apply usersLeft_prefix_foldl.
Qed.

(** C1, in the form that holds of the code.  After any sequence of Join
    and Leave events of one user, processed from the construction of the
    room on, the user is at
    most once in the registry and at most once in the list of the users who
    left.  Right after a Leave the user is in that list and not in the
    registry, and right after a Join the user is in the registry.  The list
    of the users who left only grows: the user is not in it as long as no
    Leave was processed, and once a Leave was processed the user is in it
    whatever follows, so that a user who left and joined again is in the
    registry and in the list at once; what the list held after a part of
    the events is the beginning of what it holds after all of them. *)
Theorem membership_after_join_leave me names hc nc id u evs :
  Forall (λ e, is_join_leave_of u e = true) evs →
  let w := foldl (λ w0 e, processStateEvent (Some e) w0)
                 (Room_new me names hc nc id) evs in
  (occurrences u (QMultiHash.values (Private.users (d w))) ≤ 1)%nat
  ∧ (occurrences u (Private.usersLeft (d w)) ≤ 1)%nat
  ∧ (last_membership evs = Some MembershipType.Leave →
     (u ∉ QMultiHash.values (Private.users (d w)))
     ∧ (u ∈ Private.usersLeft (d w)))
  ∧ (last_membership evs = Some MembershipType.Join →
     u ∈ QMultiHash.values (Private.users (d w)))
  ∧ (Forall (λ e, event_membership e ≠ Some MembershipType.Leave) evs →
     u ∉ Private.usersLeft (d w))
  ∧ (Exists (λ e, event_membership e = Some MembershipType.Leave) evs →
     u ∈ Private.usersLeft (d w))
  ∧ (last_membership evs = Some MembershipType.Join →
     Exists (λ e, event_membership e = Some MembershipType.Leave) evs →
     (u ∈ QMultiHash.values (Private.users (d w)))
     ∧ (u ∈ Private.usersLeft (d w)))
  ∧ (∀ evs1 evs2, evs = evs1 ++ evs2 →
       Private.usersLeft
         (d (foldl (λ w0 e, processStateEvent (Some e) w0)
                   (Room_new me names hc nc id) evs1))
       `prefix_of` Private.usersLeft (d w)).
Proof.
  intros Hall w.
  assert (Hw : registry_consistent w)
    by (subst w; apply consistent_foldl, consistent_Room_new).
  assert (Hlast : ∀ m, last_membership evs = Some m →
            ∃ (w0 : World) (dn : string),
              registry_consistent w0
              ∧ member_state w
                = member_transition u m
                    (member_state
                       (User_processEvent u (RoomMemberEvent u m dn) w0))).
  { intros m Hm. unfold last_membership in Hm.
    destruct (last evs) as [e|] eqn:Hl; [|done].
    apply last_Some in Hl as [evs' ->].
    apply Forall_app in Hall as [_ He]. apply Forall_inv in He.
    apply join_leave_event in He as (ts & m' & dn & ->).
    injection Hm as ->.
    exists (foldl (λ w0 e, processStateEvent (Some e) w0)
                  (Room_new me names hc nc id) evs'), dn.
    split; [apply consistent_foldl, consistent_Room_new|].
    subst w. rewrite foldl_snoc. apply member_state_processStateEvent. }
  destruct Hw as (Hleft & Hnd & _).
  split; [by apply occurrences_NoDup|]. split; [by apply occurrences_NoDup|].
  assert (Hjoin : last_membership evs = Some MembershipType.Join →
                  u ∈ QMultiHash.values (Private.users (d w))).
  { intros Hm. destruct (Hlast _ Hm) as (w0 & dn & Hw0 & Hms).
    change (Private.users (d w)) with (member_state w).1.1.1.
    rewrite Hms. apply member_transition_join. }
  assert (Hstays :
            Exists (λ e, event_membership e = Some MembershipType.Leave) evs →
            u ∈ Private.usersLeft (d w))
    by (intros Hex; subst w; by apply usersLeft_leave_foldl).
  repeat split.
  - intros Hin. revert Hin.
    destruct (Hlast _ H) as (w0 & dn & Hw0 & Hms).
    change (Private.users (d w)) with (member_state w).1.1.1.
    rewrite Hms. apply member_transition_leave.
    by apply consistent_User_processEvent.
  - destruct (Hlast _ H) as (w0 & dn & Hw0 & Hms).
    change (Private.usersLeft (d w)) with (member_state w).1.1.2.
    rewrite Hms. apply member_transition_leave.
    by apply consistent_User_processEvent.
  - exact Hjoin.
  - intros Hnoleave. subst w. rewrite usersLeft_foldl by done.
    simpl. by intros Hin%elem_of_nil.
  - exact Hstays.
  - by apply Hjoin.
  - by apply Hstays.
  - intros evs1 evs2 ->. subst w. rewrite foldl_app.
    apply usersLeft_prefix_foldl.
Qed.

(** *** A second Leave *)

Lemma User_name_User_processEvent u userId membership displayName w :
  User_name
    (User_processEvent u (RoomMemberEvent userId membership displayName) w) u
  = displayName.
Proof.
  pose proof (member_state_User_processEvent u userId membership displayName w)
    as Hms.
  apply (f_equal (λ ms, ms.1.2)) in Hms. simpl in Hms.
  unfold User_name at 1. rewrite Hms.
  case_bool_decide as Hname; simpl; [done|]. by rewrite lookup_insert_eq.
Qed.

Lemma member_transition_names u membership ms :
  (member_transition u membership ms).1.2 = ms.1.2.
Proof.
  destruct ms as [[[users usersLeft] names] slots]. unfold member_transition.
  destruct (_ && _); [done|]. by case_bool_decide.
Qed.

Lemma member_transition_leave_twice u ms :
  (member_transition u MembershipType.Leave
     (member_transition u MembershipType.Leave ms)).1.1
  = (member_transition u MembershipType.Leave ms).1.1.
Proof.
  destruct ms as [[[users usersLeft] names] slots]. simpl. f_equal.
  - apply remove_absent. rewrite elem_of_remove. tauto.
  - destruct (contains usersLeft u) eqn:Hc; [by rewrite Hc|].
    rewrite (proj2 (contains_true _ _)); [done|].
    apply elem_of_app. right. by left.
Qed.

Lemma User_name_after_member_event ts u membership displayName w :
  User_name
    (processStateEvent
       (Some {| ev_timestamp := ts;
                ev_data := RoomMemberEvent u membership displayName |}) w) u
  = displayName.
Proof.
  pose proof (member_state_processStateEvent ts u membership displayName w)
    as Hms.
  pose proof (User_name_User_processEvent u u membership displayName w)
    as Hname.
  remember (processStateEvent _ w) as w1 eqn:Hw1. clear Hw1.
  remember (User_processEvent u _ w) as wa eqn:Hwa. clear Hwa.
  apply (f_equal (λ ms, ms.1.2)) in Hms.
  rewrite member_transition_names in Hms. simpl in Hms.
  unfold User_name in *. by rewrite Hms.
Qed.

Lemma member_state_leave_again ts u displayName w :
  User_name w u = displayName →
  member_state
    (processStateEvent
       (Some {| ev_timestamp := ts;
                ev_data := RoomMemberEvent u MembershipType.Leave displayName |})
       w)
  = member_transition u MembershipType.Leave (member_state w).
Proof.
  intros Hname. rewrite member_state_processStateEvent.
  rewrite member_state_User_processEvent.
  by rewrite bool_decide_eq_true_2.
Qed.

(** C8. Processing the same Leave event a second time leaves the registry
    and the list of the users who left as the first time left them. *)
Theorem leave_twice_idempotent ts u displayName w :
  let leave :=
    Some {| ev_timestamp := ts;
            ev_data := RoomMemberEvent u MembershipType.Leave displayName |} in
  let w1 := processStateEvent leave w in
  let w2 := processStateEvent leave w1 in
  Private.users (d w2) = Private.users (d w1)
  ∧ Private.usersLeft (d w2) = Private.usersLeft (d w1).
Proof.
  intros leave w1 w2.
  pose proof (member_state_processStateEvent ts u MembershipType.Leave
                displayName w) as H1.
  pose proof (member_state_leave_again ts u displayName w1
                (User_name_after_member_event ts u MembershipType.Leave
                   displayName w)) as H2.
  fold leave in H1, H2. fold w1 in H1. fold w2 in H2.
  clearbody w2. clearbody w1.
  assert (H : (member_state w2).1.1 = (member_state w1).1.1).
  { rewrite H2, H1. apply member_transition_leave_twice. }
  unfold member_state in H. simpl in H. by injection H.
Qed.

(** *** A Leave of a user who is not a member *)

Lemma User_processEvent_absent u userId membership displayName w :
  u ∉ QMultiHash.values (Private.users (d w)) →
  User_processEvent u (RoomMemberEvent userId membership displayName) w
  = if bool_decide (User_name w u = displayName) then w
    else set_userNames (<[u:=displayName]> (userNames w)) w.
Proof.
  intros Habsent. rewrite User_processEvent_member.
  case_bool_decide; [done|]. cbv zeta. case_bool_decide; [|done].
  apply renameUser_absent. simpl. intros Hin. apply Habsent.
  apply elem_of_values. eauto.
Qed.

(** C10. A Leave event of a user who is not in the registry leaves the
    registry as it is, and still does the rest: the user is appended to the
    list of the users who left unless already there, [userRemoved] is
    emitted, and the display name is computed again, with [namesChanged]
    behind [userRemoved] when it changed.  So the event is not without
    effect. *)
Theorem leave_of_absent_user ts u displayName w :
  u ∉ QMultiHash.values (Private.users (d w)) →
  let w' :=
    processStateEvent
      (Some {| ev_timestamp := ts;
               ev_data := RoomMemberEvent u MembershipType.Leave displayName |})
      w in
  Private.users (d w') = Private.users (d w)
  ∧ Private.usersLeft (d w')
    = (if contains (Private.usersLeft (d w)) u then Private.usersLeft (d w)
       else Private.usersLeft (d w) ++ [u])
  ∧ (∃ tail, emitted w' = emitted w ++ userRemoved u :: tail
             ∧ (tail = [] ∨ tail = [namesChanged]))
  ∧ Private.displayname (d w') = displayname_spec w'
  ∧ w' ≠ w.
Proof.
  intros Habsent w'.
  assert (Hw' : ∃ w4,
    w' = updateDisplayname (emit (userRemoved u) w4)
    ∧ Private.users (d w4) = Private.users (d w)
    ∧ Private.usersLeft (d w4)
      = (if contains (Private.usersLeft (d w)) u then Private.usersLeft (d w)
         else Private.usersLeft (d w) ++ [u])
    ∧ emitted w4 = emitted w).
  { subst w'. unfold processStateEvent. simpl.
    rewrite User_processEvent_absent by done.
    set (wa := if bool_decide _ then w else _).
    assert (Hd : d wa = d w) by (subst wa; by case_bool_decide).
    assert (He : emitted wa = emitted w) by (subst wa; by case_bool_decide).
    clearbody wa.
    rewrite (proj2 (contains_false
                      (QMultiHash.values_of (Private.users (d wa))
                                            (User_name wa u)) u)).
    2:{ rewrite elem_of_values_of, Hd. intros Hin. apply Habsent.
        apply elem_of_values. eauto. }
    eexists. split; [done|]. rewrite Hd.
    destruct (contains (Private.usersLeft (d w)) u); simpl; by rewrite ?Hd. }
  clearbody w'. destruct Hw' as (w4 & -> & Hu & Hl & He).
  rewrite updateDisplayname_store.
  set (w5 := emit (userRemoved u) w4).
  rewrite displayname_spec_store, displayname_store, emitted_store.
  assert (Hem : emitted (store_displayname (displayname_spec w5) w5)
                = emitted w ++ userRemoved u
                    :: (if bool_decide (Private.displayname (d w5)
                                        ≠ displayname_spec w5)
                        then [namesChanged] else [])).
  { rewrite emitted_store. subst w5. simpl. rewrite He.
    by rewrite <- app_assoc. }
  split; [unfold store_displayname; by case_bool_decide|].
  split; [unfold store_displayname; by case_bool_decide|].
  split; [|split; [done|]].
  - eexists. split; [by rewrite <- emitted_store|].
    case_bool_decide; auto.
  - intros Heq. apply (f_equal (λ x, length (emitted x))) in Heq.
    rewrite Hem, length_app in Heq. simpl in Heq. lia.
Qed.

(** * Further properties *)

(** ** Frames and signals *)

Lemma emits_refl P w : emits P w w.
Proof. exists []. by rewrite app_nil_r. Qed.

Lemma emits_trans P w1 w2 w3 : emits P w1 w2 → emits P w2 w3 → emits P w1 w3.
Proof.
  intros (s1 & H1 & F1) (s2 & H2 & F2). exists (s1 ++ s2).
  rewrite H2, H1, <- app_assoc. split; [done|]. by apply Forall_app.
Qed.

Lemma emits_weaken (P Q : Signal → Prop) w w' :
  (∀ s, P s → Q s) → emits P w w' → emits Q w w'.
Proof.
  intros HPQ (sigs & H & F). exists sigs. split; [done|].
  eapply Forall_impl; eauto.
Qed.

Lemma emits_same P w w' : emitted w' = emitted w → emits P w w'.
Proof. intros H. exists []. by rewrite app_nil_r. Qed.

Lemma emits_emit (P : Signal → Prop) s w w' :
  P s → emits P w w' → emits P w (emit s w').
Proof.
  intros Hs Hw. eapply emits_trans; [exact Hw|].
  exists [s]. split; [done|]. by constructor.
Qed.

Lemma emits_foldl {A} P (f : World → A → World) (l : list A) w :
  (∀ w0 x, emits P w0 (f w0 x)) → emits P w (foldl f w l).
Proof.
  intros Hf. revert w. induction l as [|x l IH]; intros w; simpl.
  - apply emits_refl.
  - eapply emits_trans; [apply Hf|apply IH].
Qed.

Lemma emits_updateDisplayname (P : Signal → Prop) w :
  P namesChanged → emits P w (updateDisplayname w).
Proof.
  intros HP. rewrite updateDisplayname_store. unfold store_displayname.
  case_bool_decide; [|by apply emits_same].
  apply emits_emit; [done|]. by apply emits_same.
Qed.

Lemma emits_renameUser (P : Signal → Prop) u oldName w :
  P namesChanged → emits P w (renameUser u oldName w).
Proof.
  intros HP. unfold renameUser. destruct (contains _ u); [|apply emits_refl].
  eapply emits_trans; [|by apply emits_updateDisplayname]. by apply emits_same.
Qed.

Lemma emits_User_processEvent (P : Signal → Prop) u e w :
  P namesChanged → emits P w (User_processEvent u e w).
Proof.
  intros HP. destruct e; try apply emits_refl.
  rewrite User_processEvent_member. case_bool_decide; [apply emits_refl|].
  cbv zeta. case_bool_decide; [|by apply emits_same].
  eapply emits_trans; [|by apply emits_renameUser]. by apply emits_same.
Qed.

Lemma emits_processStateEvent event w :
  emits (λ s, state_signal s = true) w (processStateEvent event w).
Proof.
  set (P := λ s, state_signal s = true).
  destruct event as [[ts e]|]; [|apply emits_refl].
  destruct e; simpl; try apply emits_refl;
    try (eapply emits_trans; [|by apply (emits_updateDisplayname P)];
         by apply emits_same).
  - apply emits_emit; [done|]. by apply emits_same.
  - set (wa := User_processEvent _ _ w).
    assert (Ha : emits P w wa) by by apply emits_User_processEvent.
    clearbody wa. eapply emits_trans; [exact Ha|].
    destruct (_ && _).
    + eapply emits_trans; [|by apply (emits_updateDisplayname P)].
      apply emits_emit; [done|]. by apply emits_same.
    + case_bool_decide; [|apply emits_refl].
      eapply emits_trans; [|by apply (emits_updateDisplayname P)].
      apply emits_emit; [done|]. apply emits_same. by repeat case_match.
Qed.

Lemma emits_processEphemeralEvent event w :
  emits (λ s, s = typingChanged) w (processEphemeralEvent event w).
Proof.
  unfold processEphemeralEvent. destruct (ev_data event); try apply emits_refl.
  - apply emits_emit; [done|]. by apply emits_same.
  - apply emits_foldl. intros w0 [eventId rs].
    apply emits_foldl. intros w1 r. by apply emits_same.
Qed.

Lemma state_frame_foldl {A} (f : World → A → World) (l : list A) w :
  (∀ w0 x, state_frame (f w0 x) = state_frame w0) →
  state_frame (foldl f w l) = state_frame w.
Proof.
  intros Hf. revert w. induction l as [|x l IH]; intros w; simpl; [done|].
  by rewrite IH, Hf.
Qed.

Lemma state_frame_updateDisplayname w :
  state_frame (updateDisplayname w) = state_frame w.
Proof.
  rewrite updateDisplayname_store. unfold store_displayname.
  by case_bool_decide.
Qed.

Lemma state_frame_renameUser u oldName w :
  state_frame (renameUser u oldName w) = state_frame w.
Proof.
  unfold renameUser. destruct (contains _ u); [|done].
  by rewrite state_frame_updateDisplayname.
Qed.

Lemma state_frame_User_processEvent u e w :
  state_frame (User_processEvent u e w) = state_frame w.
Proof.
  destruct e; try done. rewrite User_processEvent_member.
  case_bool_decide; [done|]. cbv zeta. case_bool_decide; [|done].
  by rewrite state_frame_renameUser.
Qed.

Lemma state_frame_processStateEvent event w :
  state_frame (processStateEvent event w) = state_frame w.
Proof.
  destruct event as [[ts e]|]; [|done].
  destruct e; simpl; rewrite ?state_frame_updateDisplayname; try done.
  set (wa := User_processEvent _ _ w).
  assert (Ha : state_frame wa = state_frame w)
    by apply state_frame_User_processEvent.
  rewrite <- Ha. clearbody wa.
  destruct (_ && _); [by rewrite state_frame_updateDisplayname|].
  case_bool_decide; [|done].
  rewrite state_frame_updateDisplayname. by repeat case_match.
Qed.

Lemma ephemeral_frame_processEphemeralEvent event w :
  ephemeral_frame (processEphemeralEvent event w) = ephemeral_frame w.
Proof.
  unfold processEphemeralEvent. destruct (ev_data event); try done.
  generalize w. induction receipts as [|[eventId rs] receipts IH];
    intros w0; simpl; [done|].
  rewrite IH. clear IH. generalize w0.
  induction rs as [|r rs IH]; intros w1; simpl; [done|]. by rewrite IH.
Qed.

(** *** An induction principle for the calls

    A relation between worlds that is reflexive and transitive, and that
    holds across the handlers and across the few fields written outside
    them, holds across every call and every run. *)
Section StepInduction.

Variable R : World → World → Prop.
Hypothesis R_refl : ∀ w, R w w.
Hypothesis R_trans : ∀ w1 w2 w3, R w1 w2 → R w2 w3 → R w1 w3.
Hypothesis R_state : ∀ event w, R w (processStateEvent event w).
Hypothesis R_ephemeral : ∀ event w, R w (processEphemeralEvent event w).
Hypothesis R_message : ∀ event w, R w (addMessage event w).
Hypothesis R_joinState : ∀ state w, R w (setJoinState state w).
Hypothesis R_highlight : ∀ w, R w (emit highlightCountChanged w).
Hypothesis R_notification : ∀ w, R w (emit notificationCountChanged w).
Hypothesis R_prevBatch : ∀ v w, R w (upd (Private.set_prevBatch v) w).
Hypothesis R_highlightCount :
  ∀ v w, R w (upd (Private.set_highlightCount v) w).
Hypothesis R_notificationCount :
  ∀ v w, R w (upd (Private.set_notificationCount v) w).
Hypothesis R_gettingNewContent :
  ∀ v w, R w (upd (Private.set_gettingNewContent v) w).
Hypothesis R_jobs : ∀ v w, R w (set_jobs v w).

Lemma R_foldl {A} (f : World → A → World) (l : list A) w :
  (∀ w0 x, R w0 (f w0 x)) → R w (foldl f w l).
Proof using R_refl R_trans.
  intros Hf. revert w. induction l as [|x l IH]; intros w; simpl; [done|].
  eapply R_trans; [apply Hf|apply IH].
Qed.

Lemma R_timelineEvent_step w e : R w (timelineEvent_step w e).
Proof using R_trans R_state R_message.
  unfold timelineEvent_step. eapply R_trans; [apply (R_message e)|].
  apply R_state.
Qed.

Lemma updateData_unfold data w :
  updateData data w
  = sync_counts data
      (sync_events data
         (setJoinState (SyncRoomData.joinState data)
            (if isEmpty (Private.prevBatch (d w))
             then upd (Private.set_prevBatch
                         (SyncRoomData.timelinePrevBatch data)) w
             else w))).
Proof. reflexivity. Qed.

Lemma R_sync_events data w : R w (sync_events data w).
Proof using R_refl R_trans R_state R_ephemeral R_message.
  unfold sync_events.
  eapply R_trans; [|apply R_foldl; intros; apply R_ephemeral].
  eapply R_trans; [|apply R_foldl; intros; apply R_timelineEvent_step].
  apply R_foldl; intros; apply R_state.
Qed.

Lemma R_sync_counts data w : R w (sync_counts data w).
Proof using R_refl R_trans R_highlight R_notification R_highlightCount
  R_notificationCount.
  unfold sync_counts.
  set (w6 := if bool_decide (_ ≠ Private.highlightCount (d w)) then _ else w).
  assert (H6 : R w w6).
  { subst w6. case_bool_decide; [|done].
    eapply R_trans; [apply R_highlightCount|apply R_highlight]. }
  clearbody w6. cbv zeta. case_bool_decide; [|done].
  eapply R_trans; [exact H6|]. eapply R_trans; [apply R_notificationCount|].
  apply R_notification.
Qed.

Lemma R_updateData data w : R w (updateData data w).
Proof using All.
  rewrite updateData_unfold.
  eapply R_trans; [|apply R_sync_counts].
  eapply R_trans; [|apply R_sync_events].
  eapply R_trans; [|apply R_joinState].
  by case_match.
Qed.

Lemma R_gotMessages job w : R w (gotMessages job w).
Proof using All.
  unfold gotMessages. eapply R_trans; [|apply R_gettingNewContent].
  case_bool_decide; [done|].
  eapply R_trans; [|apply R_prevBatch].
  apply R_foldl. intros w0 e. apply (R_message e).
Qed.

Lemma R_step w c : R w (step w c).
Proof using All.
  destruct c; simpl.
  - apply R_updateData.
  - apply R_message.
  - apply R_state.
  - apply R_joinState.
  - unfold resetNotificationCount. case_bool_decide; [done|].
    eapply R_trans; [apply R_notificationCount|apply R_notification].
  - unfold resetHighlightCount. case_bool_decide; [done|].
    eapply R_trans; [apply R_highlightCount|apply R_highlight].
  - unfold getPreviousContent. destruct (negb _); [|done].
    eapply R_trans; [apply R_gettingNewContent|apply R_jobs].
  - destruct (jobs w); [done|].
    eapply R_trans; [apply R_jobs|apply R_gotMessages].
Qed.

Lemma R_run cs w : R w (run cs w).
Proof using All.
  revert w. induction cs as [|c cs IH]; intros w; [done|].
  eapply R_trans; [apply R_step|apply IH].
Qed.

End StepInduction.

(** ** Members *)

Lemma member_state_ephemeral w w' :
  ephemeral_frame w' = ephemeral_frame w → member_state w' = member_state w.
Proof.
  intros H. unfold member_state.
  change (Private.users (d w')) with (Private.users (ephemeral_frame w').1.1.1.1).
  change (Private.usersLeft (d w'))
    with (Private.usersLeft (ephemeral_frame w').1.1.1.1).
  change (userNames w') with (ephemeral_frame w').1.1.2.
  change (nameChangedSlots w') with (ephemeral_frame w').1.2.
  by rewrite H.
Qed.

Lemma member_state_setJoinState state w :
  member_state (setJoinState state w) = member_state w.
Proof. unfold setJoinState. by case_bool_decide. Qed.

(** A member event of [v] does not touch the entries of the other users. *)
Lemma users_User_processEvent_other v userId membership displayName w key u :
  u ≠ v →
  (key, u) ∈ Private.users
               (d (User_processEvent v
                     (RoomMemberEvent userId membership displayName) w))
  ↔ (key, u) ∈ Private.users (d w).
Proof.
  intros Hne.
  pose proof (member_state_User_processEvent v userId membership displayName w)
    as Hms.
  apply (f_equal (λ ms, ms.1.1.1)) in Hms. simpl in Hms. rewrite Hms.
  case_bool_decide as Hn; [done|]. simpl. case_bool_decide as Hp; [|done].
  rewrite elem_of_cons, elem_of_remove. split.
  - intros [[= -> ->]|[_ Hk]]; done.
  - intros Hk. right. split; [|done]. intros [= -> ->]. done.
Qed.

Lemma values_User_processEvent v userId membership displayName w u :
  u ∈ QMultiHash.values
        (Private.users
           (d (User_processEvent v
                 (RoomMemberEvent userId membership displayName) w)))
  ↔ u ∈ QMultiHash.values (Private.users (d w)).
Proof.
  destruct (decide (u = v)) as [->|Hne].
  - pose proof (member_state_User_processEvent v userId membership
                  displayName w) as Hms.
    apply (f_equal (λ ms, ms.1.1.1)) in Hms. simpl in Hms. rewrite Hms.
    case_bool_decide; [done|]. simpl. case_bool_decide as Hin; [|done].
    destruct Hin as [_ Hin]. split.
    + intros _. apply elem_of_values. eauto.
    + intros _. apply elem_of_values. exists displayName. by left.
  - rewrite !elem_of_values.
    split; intros [key Hk]; exists key;
      by apply (users_User_processEvent_other v userId membership displayName
                  w key u Hne).
Qed.

Lemma member_transition_other v membership ms key u :
  u ≠ v →
  (key, u) ∈ (member_transition v membership ms).1.1.1 ↔ (key, u) ∈ ms.1.1.1.
Proof.
  destruct ms as [[[users usersLeft] names] slots]. intros Hne.
  unfold member_transition. destruct (_ && _); simpl.
  - unfold QMultiHash.insert. rewrite elem_of_cons. split; [|by right].
    intros [[= -> ->]|Hk]; done.
  - case_bool_decide as Hl; [|done]. simpl. rewrite elem_of_remove.
    split; [tauto|].
    intros Hk. split; [|done]. intros [= -> ->]. done.
Qed.

Lemma member_transition_left v membership ms u :
  u ∈ (member_transition v membership ms).1.1.2
  ↔ u ∈ ms.1.1.2 ∨ (u = v ∧ membership = MembershipType.Leave).
Proof.
  destruct ms as [[[users usersLeft] names] slots].
  unfold member_transition. destruct (_ && _) eqn:Hj; simpl.
  - apply andb_true_iff in Hj as [Hj _]. apply bool_decide_eq_true in Hj.
    split; [tauto|]. intros [Hk|[_ Hk]]; [done|]. by subst.
  - clear Hj. case_bool_decide as Hl; simpl.
    + destruct (contains usersLeft v) eqn:Hc.
      * apply contains_true in Hc. split; [tauto|].
        intros [Hk|[-> _]]; done.
      * rewrite elem_of_app, list_elem_of_singleton. tauto.
    + tauto.
Qed.

(** What a member event does to the membership of any user [u]. *)
Lemma member_event_effect ts v membership displayName w u :
  registry_consistent w →
  let w' :=
    processStateEvent
      (Some {| ev_timestamp := ts;
               ev_data := RoomMemberEvent v membership displayName |}) w in
  (u ∈ QMultiHash.values (Private.users (d w'))
   ↔ if bool_decide (u = v)
     then membership = MembershipType.Join
          ∨ (membership ≠ MembershipType.Leave
             ∧ u ∈ QMultiHash.values (Private.users (d w)))
     else u ∈ QMultiHash.values (Private.users (d w)))
  ∧ (u ∈ Private.usersLeft (d w')
     ↔ u ∈ Private.usersLeft (d w)
       ∨ (u = v ∧ membership = MembershipType.Leave)).
Proof.
  intros Hw w'.
  pose proof (member_state_processStateEvent ts v membership displayName w)
    as Hms.
  fold w' in Hms. clearbody w'.
  set (wa := User_processEvent v (RoomMemberEvent v membership displayName) w)
    in Hms.
  assert (Hwa : registry_consistent wa)
    by (by apply consistent_User_processEvent).
  assert (Hva : ∀ x, x ∈ QMultiHash.values (Private.users (d wa))
                     ↔ x ∈ QMultiHash.values (Private.users (d w)))
    by (intros x; apply values_User_processEvent).
  assert (Hla : Private.usersLeft (d wa) = Private.usersLeft (d w))
    by apply usersLeft_User_processEvent.
  clearbody wa.
  change (Private.users (d w')) with (member_state w').1.1.1.
  change (Private.usersLeft (d w')) with (member_state w').1.1.2.
  rewrite Hms. split.
  - case_bool_decide as Huv.
    + subst v. destruct (decide (membership = MembershipType.Join)) as [->|Hj].
      * split; [by left|]. intros _. apply member_transition_join.
      * destruct (decide (membership = MembershipType.Leave)) as [->|Hl].
        -- split; [|intros [?|[? _]]; done].
           intros Hin. by apply (member_transition_leave u) in Hin.
        -- rewrite <- Hva. unfold member_state.
           unfold member_transition. rewrite !bool_decide_eq_false_2 by done.
           simpl. tauto.
    + rewrite <- Hva. rewrite !elem_of_values.
      split; intros [key Hk]; exists key;
        by apply (member_transition_other v membership (member_state wa)
                    key u Huv).
  - rewrite member_transition_left. simpl. by rewrite Hla.
Qed.

Lemma processStateEvent_join_present ts u displayName w :
  User_name w u = displayName →
  (displayName, u) ∈ Private.users (d w) →
  processStateEvent
    (Some {| ev_timestamp := ts;
             ev_data := RoomMemberEvent u MembershipType.Join displayName |}) w
  = w.
Proof.
  intros Hname Hin. unfold processStateEvent. simpl.
  rewrite User_processEvent_member, bool_decide_eq_true_2 by done.
  rewrite Hname.
  rewrite (proj2 (contains_true
                    (QMultiHash.values_of (Private.users (d w)) displayName) u))
    by by rewrite elem_of_values_of.
  done.
Qed.

(** X1. After a Join event the user is in the registry, filed under the
    display name of the event, which is now the name of the user; handing
    the same Join event to the handler again changes nothing at all: no
    second entry, no second connection, no signal. *)
Theorem join_twice ts u displayName w :
  let join :=
    Some {| ev_timestamp := ts;
            ev_data := RoomMemberEvent u MembershipType.Join displayName |} in
  let w1 := processStateEvent join w in
  (displayName, u) ∈ Private.users (d w1)
  ∧ User_name w1 u = displayName
  ∧ processStateEvent join w1 = w1.
Proof.
  intros join w1.
  assert (Hname : User_name w1 u = displayName)
    by apply User_name_after_member_event.
  assert (Hin : (displayName, u) ∈ Private.users (d w1)).
  { pose proof (member_state_processStateEvent ts u MembershipType.Join
                  displayName w) as Hms.
    pose proof (User_name_User_processEvent u u MembershipType.Join
                  displayName w) as Hna.
    fold join in Hms. fold w1 in Hms. clearbody w1.
    set (wa := User_processEvent _ _ w) in *. clearbody wa.
    change (Private.users (d w1)) with (member_state w1).1.1.1.
    rewrite Hms. unfold member_state, member_transition.
    fold (User_name wa u). rewrite Hna. simpl.
    destruct (contains _ u) eqn:Hc; simpl.
    - apply contains_true in Hc. by rewrite elem_of_values_of in Hc.
    - by left. }
  clearbody w1. split; [done|]. split; [done|].
  by apply processStateEvent_join_present.
Qed.

(** X2. A member event whose membership is neither Join nor Leave (an
    invitation, a knock, a ban) gives the user the name of the event and
    leaves the membership alone: the same users are in the registry, the
    list of the users who left and the connections are as before. *)
Theorem other_membership_keeps_members ts u membership displayName w :
  membership ≠ MembershipType.Join →
  membership ≠ MembershipType.Leave →
  let w' :=
    processStateEvent
      (Some {| ev_timestamp := ts;
               ev_data := RoomMemberEvent u membership displayName |}) w in
  (∀ v, v ∈ QMultiHash.values (Private.users (d w'))
        ↔ v ∈ QMultiHash.values (Private.users (d w)))
  ∧ Private.usersLeft (d w') = Private.usersLeft (d w)
  ∧ nameChangedSlots w' = nameChangedSlots w
  ∧ User_name w' u = displayName.
Proof.
  intros Hj Hl w'.
  assert (Hname : User_name w' u = displayName)
    by apply User_name_after_member_event.
  pose proof (member_state_processStateEvent ts u membership displayName w)
    as Hms.
  fold w' in Hms. clearbody w'.
  set (wa := User_processEvent u (RoomMemberEvent u membership displayName) w)
    in Hms.
  assert (Hva : ∀ x, x ∈ QMultiHash.values (Private.users (d wa))
                     ↔ x ∈ QMultiHash.values (Private.users (d w)))
    by (intros x; apply values_User_processEvent).
  assert (Hla : Private.usersLeft (d wa) = Private.usersLeft (d w))
    by apply usersLeft_User_processEvent.
  assert (Hsa : nameChangedSlots wa = nameChangedSlots w).
  { pose proof (member_state_User_processEvent u u membership displayName w)
      as Hm.
    apply (f_equal (λ ms, ms.2)) in Hm. simpl in Hm. fold wa in Hm.
    rewrite Hm. by case_bool_decide. }
  clearbody wa.
  assert (Heq : member_state w' = member_state wa).
  { rewrite Hms. destruct (member_state wa) as [[[us lf] ns] sl].
    unfold member_transition. by rewrite !bool_decide_eq_false_2 by done. }
  unfold member_state in Heq. injection Heq as -> -> _ ->. done.
Qed.



Lemma last_join_leave_snoc u evs e :
  last_join_leave u (evs ++ [e])
  = match join_leave_of u e with
    | Some m => Some m
    | None => last_join_leave u evs
    end.
Proof.
  unfold last_join_leave. rewrite omap_app. simpl.
  destruct (join_leave_of u e); simpl.
  - apply last_snoc.
  - by rewrite app_nil_r.
Qed.

(** X3. Through any sequence of state events, of any kinds and users,
    handled from the construction of the room on, the registry holds
    exactly the users whose last Join or Leave event is a Join, and the list
    of the users who left holds exactly the users for whom a Leave event was
    handled. *)
Theorem registry_tracks_membership me names hc nc id evs u :
  let w := state_events (Room_new me names hc nc id) evs in
  (u ∈ QMultiHash.values (Private.users (d w))
   ↔ last_join_leave u evs = Some MembershipType.Join)
  ∧ (u ∈ Private.usersLeft (d w)
     ↔ Exists (λ e, join_leave_of u e = Some MembershipType.Leave) evs).
Proof.
  induction evs as [|e evs IH] using rev_ind.
  - simpl. rewrite Exists_nil, !elem_of_nil. done.
  - cbv zeta in *. unfold state_events in *. rewrite foldl_snoc.
    set (w0 := foldl _ (Room_new me names hc nc id) evs) in *.
    assert (Hw0 : registry_consistent w0)
      by (subst w0; apply consistent_foldl, consistent_Room_new).
    clearbody w0. destruct IH as [IHv IHl].
    rewrite last_join_leave_snoc, Exists_app, Exists_cons, Exists_nil.
    destruct e as [ts data].
    destruct (event_membership {| ev_timestamp := ts; ev_data := data |})
      as [m|] eqn:Hm.
    + destruct data; try done. simpl in Hm. injection Hm as ->.
      destruct (member_event_effect ts userId m displayName w0 u Hw0)
        as [Hv Hl].
      set (w' := processStateEvent _ w0) in *. clearbody w'.
      unfold join_leave_of. cbn [ev_data].
      destruct (decide (u = userId)) as [->|Hne].
      * rewrite !bool_decide_eq_true_2 in * by done.
        destruct m; cbn [andb orb] in *;
          rewrite ?bool_decide_eq_true_2, ?bool_decide_eq_false_2 by done;
          cbn [andb orb];
          rewrite ?bool_decide_eq_true_2, ?bool_decide_eq_false_2 by done;
          split; split; intuition congruence.
      * rewrite (bool_decide_eq_false_2 (u = userId)) in Hv by done.
        rewrite (bool_decide_eq_false_2 (userId = u)) by done.
        cbn [andb]. split; [tauto|]. intuition congruence.
    + pose proof (member_state_processStateEvent_other ts data w0 Hm) as Hms.
      set (w' := processStateEvent _ w0) in *. clearbody w'.
      unfold member_state in Hms. injection Hms as -> -> _ _.
      assert (Hj : join_leave_of u {| ev_timestamp := ts; ev_data := data |}
                   = None) by (by destruct data).
      rewrite Hj. split; [tauto|]. intuition congruence.
Qed.

(** X4. Whatever is called on a room from its construction on (sync
    batches, messages, state events, pagination), no user is twice in the
    registry or twice in the list of the users who left, and every user of
    the registry is filed under its current name and has its [nameChanged]
    signal connected to the room. *)
Theorem registry_consistent_run me names hc nc id cs :
  let w := run cs (Room_new me names hc nc id) in
  NoDup (Private.usersLeft (d w))
  ∧ NoDup (QMultiHash.values (Private.users (d w)))
  ∧ (∀ key u, (key, u) ∈ Private.users (d w) →
              key = User_name w u ∧ u ∈ nameChangedSlots w).
Proof.
  intros w.
  assert (H : registry_consistent w).
  { subst w.
    apply (R_run (λ w w', registry_consistent w → registry_consistent w'));
      try (intros; assumption); try (by auto).
    - intros event w. apply consistent_processStateEvent.
    - intros event w. unfold registry_consistent.
      by rewrite (member_state_ephemeral w (processEphemeralEvent event w))
        by apply ephemeral_frame_processEphemeralEvent.
    - intros state w. unfold registry_consistent.
      by rewrite member_state_setJoinState.
    - apply consistent_Room_new. }
  exact H.
Qed.

(** X5. The list of the users who left only grows, and only at its end:
    across any calls the old list is a prefix of the new one. *)
Theorem usersLeft_only_grows cs w :
  Private.usersLeft (d w) `prefix_of` Private.usersLeft (d (run cs w)).
Proof.
  apply (R_run (λ w w', Private.usersLeft (d w) `prefix_of`
                          Private.usersLeft (d w')));
    try (intros; reflexivity).
  - intros w1 w2 w3 H1 H2. by etrans.
  - intros event w0. apply usersLeft_prefix_processStateEvent.
  - intros event w0.
    pose proof (member_state_ephemeral w0 _
                  (ephemeral_frame_processEphemeralEvent event w0)) as Hms.
    set (w' := processEphemeralEvent event w0) in *. clearbody w'.
    unfold member_state in Hms. by injection Hms as _ -> _ _.
  - intros state w0.
    pose proof (member_state_setJoinState state w0) as Hms.
    set (w' := setJoinState state w0) in *. clearbody w'.
    unfold member_state in Hms. by injection Hms as _ -> _ _.
Qed.

(** X6. [renameUser] does nothing when the user is not filed under the old
    name.  When it is, the user is filed under its current name afterwards
    and no longer under a different old name, the entries of the other
    users are untouched, and the display name of the room is computed
    again. *)
Theorem renameUser_moves u oldName w :
  ((oldName, u) ∉ Private.users (d w) → renameUser u oldName w = w)
  ∧ ((oldName, u) ∈ Private.users (d w) →
     (User_name w u, u) ∈ Private.users (d (renameUser u oldName w))
     ∧ (oldName ≠ User_name w u →
        (oldName, u) ∉ Private.users (d (renameUser u oldName w)))
     ∧ (∀ key v, v ≠ u →
          (key, v) ∈ Private.users (d (renameUser u oldName w))
          ↔ (key, v) ∈ Private.users (d w))
     ∧ Private.displayname (d (renameUser u oldName w))
       = displayname_spec (renameUser u oldName w)).
Proof.
  split; [apply renameUser_absent|]. intros Hin.
  pose proof (renameUser_present u oldName w Hin) as Hms.
  apply (f_equal (λ ms, ms.1.1.1)) in Hms. simpl in Hms.
  split; [rewrite Hms; by left|].
  split; [intros Hne; by apply renameUser_not_old|]. split.
  - intros key v Hv. rewrite Hms, elem_of_cons, elem_of_remove. split.
    + intros [[= -> ->]|[_ Hk]]; done.
    + intros Hk. right. split; [|done]. intros [= -> ->]. done.
  - unfold renameUser.
    rewrite (proj2 (contains_true _ _)) by by rewrite elem_of_values_of.
    by rewrite updateDisplayname_store, displayname_spec_store,
      displayname_store.
Qed.

(** ** Display names *)

(** X7. The aliases of a room play no part in its display name: on a room
    whose display name is up to date, a [RoomAliases] event replaces the
    aliases and does nothing else; no [namesChanged] is emitted. *)
Theorem aliases_event_only_sets_aliases ts aliases w :
  Private.displayname (d w) = displayname_spec w →
  processStateEvent
    (Some {| ev_timestamp := ts; ev_data := RoomAliasesEvent aliases |}) w
  = upd (Private.set_aliases aliases) w.
Proof.
  intros Hcur. simpl. rewrite updateDisplayname_store.
  assert (Hspec : displayname_spec (upd (Private.set_aliases aliases) w)
                  = displayname_spec w)
    by (by apply displayname_spec_ext).
  rewrite Hspec. unfold store_displayname. simpl.
  rewrite bool_decide_eq_false_2 by (intros H; by apply H).
  rewrite <- Hcur. by destruct w as [[] ? ? ? ? ?].
Qed.

(** *** The order of the user ids *)

Lemma QString_lt_lt a b :
  QString_lt a b = true ↔ OrderedTypeEx.String_as_OT.lt a b.
Proof.
  rewrite <- OrderedTypeEx.String_as_OT.cmp_lt.
  unfold QString_lt, String.ltb, OrderedTypeEx.String_as_OT.cmp.
  destruct (String.compare a b); split; congruence.
Qed.

Lemma QString_lt_irrefl a : QString_lt a a = false.
Proof.
  destruct (QString_lt a a) eqn:H; [|done].
  apply QString_lt_lt, OrderedTypeEx.String_as_OT.lt_not_eq in H.
  by destruct H.
Qed.

Lemma QString_lt_trans a b c :
  QString_lt a b = true → QString_lt b c = true → QString_lt a c = true.
Proof.
  rewrite !QString_lt_lt. apply OrderedTypeEx.String_as_OT.lt_trans.
Qed.

Lemma QString_lt_trichotomy a b :
  QString_lt a b = true ∨ a = b ∨ QString_lt b a = true.
Proof.
  pose proof (OrderedTypeEx.String_as_OT.cmp_antisym a b) as Hanti.
  unfold QString_lt, String.ltb.
  unfold OrderedTypeEx.String_as_OT.cmp in Hanti.
  destruct (String.compare a b) eqn:Hab.
  - right. left. by apply OrderedTypeEx.String_as_OT.cmp_eq.
  - by left.
  - right. right. destruct (String.compare b a); simpl in Hanti; congruence.
Qed.

Lemma QString_lt_asym a b : QString_lt a b = true → QString_lt b a = false.
Proof.
  intros Hab. destruct (QString_lt b a) eqn:Hba; [|done].
  pose proof (QString_lt_trans a b a Hab Hba) as H.
  by rewrite QString_lt_irrefl in H.
Qed.

Lemma QString_lt_negtrans a b c :
  QString_lt a b = false → QString_lt b c = false → QString_lt a c = false.
Proof.
  intros Hab Hbc. destruct (QString_lt a c) eqn:Hac; [|done].
  destruct (QString_lt_trichotomy b a) as [Hba|[->|Hba']]; [|congruence..].
  pose proof (QString_lt_trans b a c Hba Hac). congruence.
Qed.

(** *** The selection of the two topmost users *)

Lemma heap_select_smallest (heap : User * User) (seen : list User) e :
  QString_lt heap.1 heap.2 = false →
  (∀ x, x ∈ seen → QString_lt x heap.1 = false) →
  ∃ seen',
    (heap_select QString_lt heap e).1 :: (heap_select QString_lt heap e).2
      :: seen' ≡ₚ heap.1 :: heap.2 :: e :: seen
    ∧ QString_lt (heap_select QString_lt heap e).1
                 (heap_select QString_lt heap e).2 = false
    ∧ (∀ x, x ∈ seen' →
         QString_lt x (heap_select QString_lt heap e).1 = false).
Proof.
  destruct heap as [top other]. simpl. intros Hheap Hseen.
  unfold heap_select. simpl.
  destruct (QString_lt e top) eqn:Het.
  - destruct (QString_lt other e) eqn:Hoe; simpl.
    + exists (top :: seen). split; [|split].
      * solve_Permutation.
      * by apply QString_lt_asym.
      * intros x [->|Hx]%elem_of_cons; [by apply QString_lt_asym|].
        destruct (QString_lt x e) eqn:Hxe; [|done].
        pose proof (QString_lt_trans x e top Hxe Het) as H.
        by rewrite Hseen in H.
    + exists (top :: seen). split; [|split].
      * solve_Permutation.
      * done.
      * intros x [->|Hx]%elem_of_cons; [done|].
        apply (QString_lt_negtrans x top other); auto.
  - exists (e :: seen). split; [done|]. split; [done|].
    intros x [->|Hx]%elem_of_cons; auto.
Qed.

Lemma heap_select_foldl_smallest rest (heap : User * User) (seen : list User) :
  QString_lt heap.1 heap.2 = false →
  (∀ x, x ∈ seen → QString_lt x heap.1 = false) →
  ∃ seen',
    (foldl (heap_select QString_lt) heap rest).1
      :: (foldl (heap_select QString_lt) heap rest).2 :: seen'
      ≡ₚ heap.1 :: heap.2 :: rest ++ seen
    ∧ QString_lt (foldl (heap_select QString_lt) heap rest).1
                 (foldl (heap_select QString_lt) heap rest).2 = false
    ∧ (∀ x, x ∈ seen' →
         QString_lt x (foldl (heap_select QString_lt) heap rest).1 = false).
Proof.
  revert heap seen. induction rest as [|e rest IH]; intros heap seen Hh Hs.
  - exists seen. done.
  - destruct (heap_select_smallest heap seen e Hh Hs) as (s1 & Hp1 & Hh1 & Hs1).
    destruct (IH _ s1 Hh1 Hs1) as (s2 & Hp2 & Hh2 & Hs2).
    exists s2. split; [|done]. cbn [foldl]. rewrite Hp2.
    set (h := heap_select QString_lt heap e) in *. clearbody h.
    transitivity (rest ++ h.1 :: h.2 :: s1); [solve_Permutation|].
    rewrite Hp1. solve_Permutation.
Qed.

Lemma heap_select_without_me me (heap : User * User) e :
  e ≠ me → heap.2 ≠ me →
  heap_select (λ u1 u2, negb (bool_decide (u1 = me)) && QString_lt u1 u2)
              heap e
  = heap_select QString_lt heap e.
Proof.
  intros He Ho. unfold heap_select.
  by rewrite !bool_decide_eq_false_2 by done.
Qed.

Lemma heap_select_foldl_without_me me rest (heap : User * User) :
  me ∉ rest → heap.1 ≠ me → heap.2 ≠ me →
  foldl (heap_select
           (λ u1 u2, negb (bool_decide (u1 = me)) && QString_lt u1 u2))
        heap rest
  = foldl (heap_select QString_lt) heap rest.
Proof.
  revert heap. induction rest as [|e rest IH]; intros heap Hrest H1 H2; [done|].
  apply not_elem_of_cons in Hrest as [He Hrest]. cbn [foldl].
  rewrite heap_select_without_me by congruence. apply IH; [done|..];
    unfold heap_select; repeat case_match; simpl; congruence.
Qed.

(** X8. In a list that does not hold the local user, the two slots of
    [first_two] get the two users with the smallest ids, the smallest
    first: every other user of the list has an id that is not below
    theirs. *)
Theorem first_two_are_smallest w userlist a b :
  localUser w ∉ userlist →
  partial_sort_copy
    (λ u1 u2, negb (bool_decide (u1 = localUser w))
              && QString_lt (User_id u1) (User_id u2))
    userlist (None, None) = (Some a, Some b) →
  QString_lt b a = false
  ∧ ∃ rest, userlist ≡ₚ a :: b :: rest
            ∧ ∀ x, x ∈ rest → QString_lt x a = false ∧ QString_lt x b = false.
Proof.
  intros Hme. destruct userlist as [|x [|y rest]]; [done|done|].
  apply not_elem_of_cons in Hme as [Hx Hme].
  apply not_elem_of_cons in Hme as [Hy Hme].
  unfold partial_sort_copy, User_id.
  rewrite (bool_decide_eq_false_2 (y = localUser w)) by congruence.
  cbn [negb andb].
  set (heap := if QString_lt y x then (x, y) else (y, x)).
  assert (Hh : QString_lt heap.1 heap.2 = false).
  { unfold heap. destruct (QString_lt y x) eqn:Hyx; simpl; [|done].
    by apply QString_lt_asym. }
  assert (Hperm : heap.1 :: heap.2 :: rest ≡ₚ x :: y :: rest).
  { unfold heap. destruct (QString_lt y x); simpl; [done|].
    solve_Permutation. }
  rewrite heap_select_foldl_without_me; [|congruence|..].
  2,3: unfold heap; destruct (QString_lt y x); simpl; congruence.
  destruct (heap_select_foldl_smallest rest heap [] Hh)
    as (seen & Hp & Hf & Hs); [intros ? []%elem_of_nil|].
  intros [= <- <-]. split; [done|]. exists seen. split.
  - rewrite <- Hperm. rewrite app_nil_r in Hp. rewrite <- Hp.
    solve_Permutation.
  - intros z Hz. split; [|by apply Hs].
    eapply QString_lt_negtrans; [by apply Hs|done].
Qed.

(** ** The timeline and its announcements *)

Lemma QList_insert_Permutation {A} i (x : A) l : QList_insert i x l ≡ₚ x :: l.
Proof.
  unfold QList_insert. rewrite <- Permutation_middle.
  by rewrite take_drop.
Qed.

Lemma QList_insert_sublist {A} i (x : A) l : l `sublist_of` QList_insert i x l.
Proof.
  unfold QList_insert. rewrite <- (take_drop i l) at 1.
  apply sublist_app; [done|]. by apply sublist_cons.
Qed.

(** X9. [addMessage] loses no event and keeps the order of the events that
    are in the timeline: the new timeline is the old one with the event put
    in somewhere.  One [newMessage] is emitted, and nothing else of the room
    changes: a message handed in this way is not looked at as a state
    event. *)
Theorem addMessage_keeps_timeline event w :
  Private.messageEvents (d (addMessage event w))
    ≡ₚ event :: Private.messageEvents (d w)
  ∧ Private.messageEvents (d w)
      `sublist_of` Private.messageEvents (d (addMessage event w))
  ∧ emitted (addMessage event w) = emitted w ++ [newMessage event]
  ∧ addMessage event w
    = emit (newMessage event)
        (upd (Private.set_messageEvents
                (Private.messageEvents (d (addMessage event w)))) w).
Proof.
  unfold addMessage, processMessageEvent, insertEvent. simpl.
  split; [apply QList_insert_Permutation|].
  split; [apply QList_insert_sublist|]. done.
Qed.

Lemma announced_emits (P : Signal → Prop) w w' :
  (∀ s, P s → announced_event s = None) →
  emits P w w' → announced w' = announced w.
Proof.
  intros HP (sigs & Heq & Hsigs). unfold announced. rewrite Heq, omap_app.
  assert (Hnil : omap announced_event sigs = []).
  { clear Heq. induction Hsigs as [|s sigs Hs _ IH]; [done|]. simpl.
    by rewrite (HP s Hs). }
  by rewrite Hnil, app_nil_r.
Qed.

Lemma announced_emit s w :
  announced (emit s w)
  = announced w ++ match announced_event s with
                   | Some e => [e]
                   | None => []
                   end.
Proof.
  unfold announced. simpl. rewrite omap_app. simpl.
  by destruct (announced_event s).
Qed.

Lemma messageEvents_state_frame w w' :
  state_frame w' = state_frame w →
  Private.messageEvents (d w') = Private.messageEvents (d w).
Proof.
  intros H.
  change (Private.messageEvents (d w'))
    with (Private.messageEvents (state_frame w').1.1).
  by rewrite H.
Qed.

Lemma messageEvents_ephemeral_frame w w' :
  ephemeral_frame w' = ephemeral_frame w →
  Private.messageEvents (d w') = Private.messageEvents (d w).
Proof.
  intros H.
  change (Private.messageEvents (d w'))
    with (Private.messageEvents (ephemeral_frame w').1.1.1.1).
  by rewrite H.
Qed.

Lemma announced_processStateEvent event w :
  announced (processStateEvent event w) = announced w.
Proof.
  apply (announced_emits (λ s, state_signal s = true));
    [|apply emits_processStateEvent].
  intros s Hs. by destruct s.
Qed.

Lemma announced_processEphemeralEvent event w :
  announced (processEphemeralEvent event w) = announced w.
Proof.
  apply (announced_emits (λ s, s = typingChanged));
    [|apply emits_processEphemeralEvent].
  by intros s ->.
Qed.

(** X10. In a room used from its construction on, the timeline holds
    exactly the events that were announced by [newMessage], each as often
    as it was announced: no event enters the timeline unannounced, and none
    is announced without entering it. *)
Theorem timeline_is_announced me names hc nc id cs :
  let w := run cs (Room_new me names hc nc id) in
  Private.messageEvents (d w) ≡ₚ announced w.
Proof.
  intros w. subst w.
  apply (R_run (λ w w', Private.messageEvents (d w) ≡ₚ announced w →
                        Private.messageEvents (d w') ≡ₚ announced w'));
    try (intros; assumption); try (by auto).
  - intros event w H.
    rewrite (messageEvents_state_frame w)
      by apply state_frame_processStateEvent.
    by rewrite announced_processStateEvent.
  - intros event w H.
    rewrite (messageEvents_ephemeral_frame w)
      by apply ephemeral_frame_processEphemeralEvent.
    by rewrite announced_processEphemeralEvent.
  - intros event w H.
    unfold addMessage. rewrite announced_emit. simpl.
    unfold processMessageEvent, insertEvent. simpl.
    rewrite QList_insert_Permutation.
    rewrite H. by rewrite <- Permutation_cons_append.
  - intros state w H. unfold setJoinState. case_bool_decide; [done|].
    rewrite announced_emit. simpl. by rewrite app_nil_r.
  - intros w H. rewrite announced_emit. simpl. by rewrite app_nil_r.
  - intros w H. rewrite announced_emit. simpl. by rewrite app_nil_r.
Qed.

(** ** Sync batches *)

(** What the loops and the counters of [updateData] leave alone. *)
Lemma sync_preserves {A} (proj : World → A) data w :
  (∀ event w0, proj (processStateEvent event w0) = proj w0) →
  (∀ event w0, proj (processEphemeralEvent event w0) = proj w0) →
  (∀ event w0, proj (addMessage event w0) = proj w0) →
  (∀ s w0, announced_event s = None → proj (emit s w0) = proj w0) →
  (∀ v w0, proj (upd (Private.set_highlightCount v) w0) = proj w0) →
  (∀ v w0, proj (upd (Private.set_notificationCount v) w0) = proj w0) →
  proj (sync_counts data (sync_events data w)) = proj w.
Proof.
  intros Hs He Hm Hsig Hh Hn.
  transitivity (proj (sync_events data w)).
  - apply (R_sync_counts (λ w0 w1, proj w1 = proj w0));
      first [ done
            | by (intros w1 w2 w3 H1 H2; rewrite H2)
            | by (intros; apply Hsig)
            | by auto ].
  - apply (R_sync_events (λ w0 w1, proj w1 = proj w0));
      first [ done | by (intros w1 w2 w3 H1 H2; rewrite H2) | by auto ].
Qed.

Lemma prevBatch_state_frame w w' :
  state_frame w' = state_frame w →
  Private.prevBatch (d w') = Private.prevBatch (d w).
Proof.
  intros H.
  change (Private.prevBatch (d w')) with (Private.prevBatch (state_frame w').1.1).
  by rewrite H.
Qed.

Lemma prevBatch_ephemeral_frame w w' :
  ephemeral_frame w' = ephemeral_frame w →
  Private.prevBatch (d w') = Private.prevBatch (d w).
Proof.
  intros H.
  change (Private.prevBatch (d w'))
    with (Private.prevBatch (ephemeral_frame w').1.1.1.1).
  by rewrite H.
Qed.

Lemma prevBatch_sync data w :
  Private.prevBatch (d (sync_counts data (sync_events data w)))
  = Private.prevBatch (d w).
Proof.
  apply (sync_preserves (λ w0, Private.prevBatch (d w0))); try done.
  - intros event w0. apply prevBatch_state_frame,
      state_frame_processStateEvent.
  - intros event w0. apply prevBatch_ephemeral_frame,
      ephemeral_frame_processEphemeralEvent.
Qed.

(** X11. [updateData] takes the pagination token of the batch only when the
    room has none; a token that the room has is never replaced by a sync
    batch, whatever events the batch carries. *)
Theorem updateData_prevBatch data w :
  Private.prevBatch (d (updateData data w))
  = if isEmpty (Private.prevBatch (d w))
    then SyncRoomData.timelinePrevBatch data
    else Private.prevBatch (d w).
Proof.
  rewrite updateData_unfold, prevBatch_sync.
  unfold setJoinState. case_bool_decide; by case_match.
Qed.

Lemma joinState_state_frame w w' :
  state_frame w' = state_frame w →
  Private.joinState (d w') = Private.joinState (d w).
Proof.
  intros H.
  change (Private.joinState (d w')) with (Private.joinState (state_frame w').1.1).
  by rewrite H.
Qed.

Lemma joinState_ephemeral_frame w w' :
  ephemeral_frame w' = ephemeral_frame w →
  Private.joinState (d w') = Private.joinState (d w).
Proof.
  intros H.
  change (Private.joinState (d w'))
    with (Private.joinState (ephemeral_frame w').1.1.1.1).
  by rewrite H.
Qed.

Lemma joinState_sync data w :
  Private.joinState (d (sync_counts data (sync_events data w)))
  = Private.joinState (d w).
Proof.
  apply (sync_preserves (λ w0, Private.joinState (d w0))); try done.
  - intros event w0. apply joinState_state_frame,
      state_frame_processStateEvent.
  - intros event w0. apply joinState_ephemeral_frame,
      ephemeral_frame_processEphemeralEvent.
Qed.

Lemma counts_sync_counts data w :
  Private.highlightCount (d (sync_counts data w))
  = SyncRoomData.highlightCount data
  ∧ Private.notificationCount (d (sync_counts data w))
    = SyncRoomData.notificationCount data.
Proof.
  unfold sync_counts.
  repeat case_bool_decide; simpl in *; split; try done; by apply dec_stable.
Qed.

(** X12. After [updateData] the join state and the two counters of the room
    are those of the batch, whatever they were and whatever events the
    batch carries. *)
Theorem updateData_adopts data w :
  Private.joinState (d (updateData data w)) = SyncRoomData.joinState data
  ∧ Private.highlightCount (d (updateData data w))
    = SyncRoomData.highlightCount data
  ∧ Private.notificationCount (d (updateData data w))
    = SyncRoomData.notificationCount data.
Proof.
  rewrite updateData_unfold. split.
  - rewrite joinState_sync. unfold setJoinState. by case_bool_decide.
  - apply counts_sync_counts.
Qed.

Lemma upd_prevBatch_same w :
  upd (Private.set_prevBatch (Private.prevBatch (d w))) w = w.
Proof. by destruct w as [[] ? ? ? ? ?]. Qed.

(** X13. A sync batch without events, handed to [updateData] a second
    time, changes nothing and emits nothing. *)
Theorem updateData_without_events_twice data w :
  SyncRoomData.state data = [] →
  SyncRoomData.timeline data = [] →
  SyncRoomData.ephemeral data = [] →
  updateData data (updateData data w) = updateData data w.
Proof.
  intros Hs Ht He.
  assert (Hj : Private.joinState (d (updateData data w))
               = SyncRoomData.joinState data).
  { rewrite updateData_unfold, joinState_sync. unfold setJoinState.
    by case_bool_decide. }
  assert (Hc : Private.highlightCount (d (updateData data w))
               = SyncRoomData.highlightCount data
               ∧ Private.notificationCount (d (updateData data w))
                 = SyncRoomData.notificationCount data)
    by (rewrite updateData_unfold; apply counts_sync_counts).
  destruct Hc as [Hh Hn].
  assert (Hp : Private.prevBatch (d (updateData data w))
               = if isEmpty (Private.prevBatch (d w))
                 then SyncRoomData.timelinePrevBatch data
                 else Private.prevBatch (d w)).
  { rewrite updateData_unfold, prevBatch_sync.
    unfold setJoinState. case_bool_decide; by case_match. }
  set (w' := updateData data w) in *. clearbody w'.
  rewrite updateData_unfold. unfold sync_events. rewrite Hs, Ht, He. simpl.
  assert (H1 : (if isEmpty (Private.prevBatch (d w'))
                then upd (Private.set_prevBatch
                            (SyncRoomData.timelinePrevBatch data)) w'
                else w') = w').
  { destruct (isEmpty (Private.prevBatch (d w'))) eqn:Hw'; [|done].
    apply isEmpty_true in Hw'.
    destruct (isEmpty (Private.prevBatch (d w))) eqn:Hw.
    - rewrite <- Hp. apply upd_prevBatch_same.
    - apply isEmpty_false in Hw. congruence. }
  rewrite H1. unfold setJoinState.
  rewrite bool_decide_eq_true_2 by done.
  unfold sync_counts.
  rewrite (bool_decide_eq_false_2
             (SyncRoomData.highlightCount data ≠ Private.highlightCount (d w')))
    by (intros H; apply H; congruence).
  by rewrite bool_decide_eq_false_2 by (intros H; apply H; congruence).
Qed.

Lemma timeline_loop evs w :
  Private.messageEvents (d (foldl timelineEvent_step w evs))
  = foldl insertEvent (Private.messageEvents (d w)) evs
  ∧ announced (foldl timelineEvent_step w evs) = announced w ++ evs.
Proof.
  revert w. induction evs as [|e evs IH]; intros w; cbn [foldl].
  - by rewrite app_nil_r.
  - destruct (IH (timelineEvent_step w e)) as [-> ->].
    unfold timelineEvent_step.
    rewrite (messageEvents_state_frame _ _ (state_frame_processStateEvent _ _)).
    rewrite announced_processStateEvent, announced_emit. simpl.
    by rewrite <- app_assoc.
Qed.

(** X14. Of the events of a sync batch, the timeline events and only they
    enter the timeline, in the order of the batch, and each is announced by
    [newMessage]; state events and ephemeral events leave no trace in the
    timeline. *)
Theorem updateData_timeline data w :
  Private.messageEvents (d (updateData data w))
  = foldl insertEvent (Private.messageEvents (d w)) (SyncRoomData.timeline data)
  ∧ announced (updateData data w) = announced w ++ SyncRoomData.timeline data.
Proof.
  set (proj := λ w0, (Private.messageEvents (d w0), announced w0)).
  assert (Hstart : ∀ w0,
    proj (setJoinState (SyncRoomData.joinState data)
            (if isEmpty (Private.prevBatch (d w0))
             then upd (Private.set_prevBatch
                         (SyncRoomData.timelinePrevBatch data)) w0
             else w0)) = proj w0).
  { intros w0. unfold proj, setJoinState. case_bool_decide.
    - by case_match.
    - rewrite announced_emit. simpl. rewrite app_nil_r. by case_match. }
  assert (Hstate : ∀ event w0, proj (processStateEvent event w0) = proj w0).
  { intros event w0. unfold proj.
    by rewrite announced_processStateEvent,
      (messageEvents_state_frame _ _ (state_frame_processStateEvent _ _)). }
  assert (Heph : ∀ event w0, proj (processEphemeralEvent event w0) = proj w0).
  { intros event w0. unfold proj.
    by rewrite announced_processEphemeralEvent,
      (messageEvents_ephemeral_frame _ _
         (ephemeral_frame_processEphemeralEvent _ _)). }
  assert (H : proj (updateData data w)
              = (foldl insertEvent (Private.messageEvents (d w))
                       (SyncRoomData.timeline data),
                 announced w ++ SyncRoomData.timeline data)).
  { rewrite updateData_unfold.
    transitivity (proj (sync_events data
                          (setJoinState (SyncRoomData.joinState data)
                             (if isEmpty (Private.prevBatch (d w))
                              then upd (Private.set_prevBatch
                                          (SyncRoomData.timelinePrevBatch data))
                                       w
                              else w)))).
    - apply (R_sync_counts (λ w0 w1, proj w1 = proj w0));
        first [ done
              | by (intros w1 w2 w3 H1 H2; rewrite H2)
              | by (intros w0; unfold proj; rewrite announced_emit; simpl;
                    rewrite app_nil_r) ].
    - unfold sync_events.
      set (w2 := setJoinState _ _) in *.
      assert (H2 : proj w2 = proj w) by apply Hstart. clearbody w2.
      set (w3 := foldl _ w2 (SyncRoomData.state data)).
      assert (H3 : proj w3 = proj w2).
      { subst w3.
        apply (R_foldl (λ w0 w1, proj w1 = proj w0));
          first [ done | by (intros w4 w5 w6 H4 H5; rewrite H5) | by auto ]. }
      clearbody w3.
      set (w4 := foldl timelineEvent_step w3 _).
      transitivity (proj w4).
      { apply (R_foldl (λ w0 w1, proj w1 = proj w0));
          first [ done | by (intros w5 w6 w7 H5 H6; rewrite H6) | by auto ]. }
      subst w4. unfold proj in *.
      destruct (timeline_loop (SyncRoomData.timeline data) w3) as [-> ->].
      rewrite H2 in H3. by injection H3 as -> ->. }
  unfold proj in H. by injection H.
Qed.

(** ** Typing and receipts *)

Lemma usersTyping_state_frame w w' :
  state_frame w' = state_frame w →
  Private.usersTyping (d w') = Private.usersTyping (d w).
Proof.
  intros H.
  change (Private.usersTyping (d w'))
    with (Private.usersTyping (state_frame w').1.1).
  by rewrite H.
Qed.

Lemma usersTyping_receipts (receipts : list (string * list Receipt)) w :
  Private.usersTyping
    (d (foldl (λ w0 '(eventId, rs),
               foldl (λ w1 r,
                      upd (λ p, Private.set_lastReadEvent
                                  (<[receipt_userId r := eventId]>
                                     (Private.lastReadEvent p)) p) w1)
                     w0 rs)
              w receipts))
  = Private.usersTyping (d w).
Proof.
  revert w. induction receipts as [|[eventId rs] receipts IH]; intros w;
    simpl; [done|].
  rewrite IH. clear IH. revert w.
  induction rs as [|r rs IH]; intros w; simpl; [done|]. by rewrite IH.
Qed.

Lemma usersTyping_processEphemeralEvent event w :
  Private.usersTyping (d (processEphemeralEvent event w))
  = default (Private.usersTyping (d w)) (typing_of event).
Proof.
  unfold processEphemeralEvent, typing_of.
  destruct (ev_data event); try done. apply usersTyping_receipts.
Qed.

Lemma last_typing_snoc evs e :
  last_typing (evs ++ [e])
  = match typing_of e with
    | Some users => Some users
    | None => last_typing evs
    end.
Proof.
  unfold last_typing. rewrite omap_app. simpl.
  destruct (typing_of e); simpl; [apply last_snoc|by rewrite app_nil_r].
Qed.

Lemma usersTyping_ephemeral_loop evs w :
  Private.usersTyping
    (d (foldl (λ w0 ephemeralEvent, processEphemeralEvent ephemeralEvent w0)
              w evs))
  = default (Private.usersTyping (d w)) (last_typing evs).
Proof.
  induction evs as [|e evs IH] using rev_ind; [done|].
  rewrite foldl_snoc, usersTyping_processEphemeralEvent, IH.
  rewrite last_typing_snoc. by destruct (typing_of e).
Qed.

(** X15. After a sync batch the typing users are those of the last
    [Typing] event among the ephemeral events of the batch: they replace the
    former ones, they are not added to them.  A batch without such an event
    leaves the typing users as they were; state and timeline events play no
    part. *)
Theorem updateData_usersTyping data w :
  Private.usersTyping (d (updateData data w))
  = default (Private.usersTyping (d w))
            (last_typing (SyncRoomData.ephemeral data)).
Proof.
  set (proj := λ w0, Private.usersTyping (d w0)).
  assert (Hstate : ∀ event w0, proj (processStateEvent event w0) = proj w0).
  { intros event w0. apply usersTyping_state_frame,
      state_frame_processStateEvent. }
  rewrite updateData_unfold.
  transitivity (proj (sync_events data
                        (setJoinState (SyncRoomData.joinState data)
                           (if isEmpty (Private.prevBatch (d w))
                            then upd (Private.set_prevBatch
                                        (SyncRoomData.timelinePrevBatch data))
                                     w
                            else w)))).
  { apply (R_sync_counts (λ w0 w1, proj w1 = proj w0));
      first [ done | by (intros w1 w2 w3 H1 H2; rewrite H2) ]. }
  unfold sync_events, proj. rewrite usersTyping_ephemeral_loop.
  f_equal. fold (proj (foldl timelineEvent_step
                         (foldl (λ w0 e, processStateEvent (Some e) w0)
                            (setJoinState (SyncRoomData.joinState data)
                               (if isEmpty (Private.prevBatch (d w))
                                then upd (Private.set_prevBatch
                                            (SyncRoomData.timelinePrevBatch
                                               data)) w
                                else w))
                            (SyncRoomData.state data))
                         (SyncRoomData.timeline data))).
  rewrite (R_foldl (λ w0 w1, proj w1 = proj w0));
    first [ done | by (intros w1 w2 w3 H1 H2; rewrite H2) | idtac ].
  2:{ intros w0 e. unfold timelineEvent_step. by rewrite Hstate. }
  rewrite (R_foldl (λ w0 w1, proj w1 = proj w0));
    first [ done | by (intros w1 w2 w3 H1 H2; rewrite H2) | by auto | idtac ].
  unfold proj, setJoinState. case_bool_decide; by case_match.
Qed.

Lemma lastReadEvent_receipts_of eventId (rs : list Receipt) w (u : User) :
  Private.lastReadEvent
    (d (foldl (λ w1 r,
               upd (λ p, Private.set_lastReadEvent
                           (<[receipt_userId r := eventId]>
                              (Private.lastReadEvent p)) p) w1)
              w rs)) !! u
  = if bool_decide (u ∈ receipt_userId <$> rs) then Some eventId
    else Private.lastReadEvent (d w) !! u.
Proof.
  revert w. induction rs as [|r rs IH]; intros w; [done|].
  cbn [foldl]. rewrite IH, fmap_cons.
  destruct (decide (u ∈ receipt_userId <$> rs)) as [Hin|Hin].
  - rewrite !bool_decide_eq_true_2; [done|by right|done].
  - rewrite (bool_decide_eq_false_2 (u ∈ receipt_userId <$> rs)) by done.
    simpl. destruct (decide (u = receipt_userId r)) as [->|Hne].
    + rewrite lookup_insert_eq, bool_decide_eq_true_2; [done|by left].
    + rewrite lookup_insert_ne by done.
      rewrite bool_decide_eq_false_2; [done|].
      by apply not_elem_of_cons.
Qed.

Lemma last_receipt_snoc (u : User) receipts entry :
  last_receipt u (receipts ++ [entry])
  = match receipt_of u entry with
    | Some eventId => Some eventId
    | None => last_receipt u receipts
    end.
Proof.
  unfold last_receipt. rewrite omap_app. simpl.
  destruct (receipt_of u entry); simpl; [apply last_snoc|by rewrite app_nil_r].
Qed.

(** X16. A [Receipt] event sets the last read event of every user it holds
    a receipt of to the event id of the last entry with such a receipt;
    the users it does not mention keep theirs. *)
Theorem receipt_last_write_wins ts receipts w (u : User) :
  Private.lastReadEvent
    (d (processEphemeralEvent
          {| ev_timestamp := ts; ev_data := ReceiptEvent receipts |} w)) !! u
  = match last_receipt u receipts with
    | Some eventId => Some eventId
    | None => Private.lastReadEvent (d w) !! u
    end.
Proof.
  unfold processEphemeralEvent. simpl.
  induction receipts as [|[eventId rs] receipts IH] using rev_ind; [done|].
  rewrite foldl_snoc, last_receipt_snoc, lastReadEvent_receipts_of.
  unfold receipt_of. simpl. by case_bool_decide.
Qed.

(** ** Pagination and join state *)

Lemma getPreviousContent_idle w :
  Private.gettingNewContent (d w) = false →
  jobs (getPreviousContent w) = jobs w ++ [Private.prevBatch (d w)]
  ∧ Private.gettingNewContent (d (getPreviousContent w)) = true
  ∧ Private.prevBatch (d (getPreviousContent w)) = Private.prevBatch (d w).
Proof. intros Hidle. unfold getPreviousContent. by rewrite Hidle. Qed.

Lemma gotMessages_pagination job w :
  jobs (gotMessages job w) = jobs w
  ∧ Private.gettingNewContent (d (gotMessages job w)) = false
  ∧ Private.prevBatch (d (gotMessages job w))
    = if bool_decide (RoomMessagesJob.error job ≠ 0%Z)
      then Private.prevBatch (d w)
      else RoomMessagesJob.end_ job.
Proof.
  unfold gotMessages. case_bool_decide; [done|].
  by rewrite gotMessages_loop.
Qed.

(** X17. A fetch asks from the token of the room.  After a fetch that
    failed, the next one asks from the same token again; after a fetch that
    succeeded, the next one asks from the token that the job returned. *)
Theorem pagination_tokens job w :
  Private.gettingNewContent (d w) = false →
  jobs w = [] →
  jobs (step w call_getPreviousContent) = [Private.prevBatch (d w)]
  ∧ jobs (run [call_getPreviousContent; job_result job;
               call_getPreviousContent] w)
    = [if bool_decide (RoomMessagesJob.error job ≠ 0%Z)
       then Private.prevBatch (d w)
       else RoomMessagesJob.end_ job]
  ∧ Private.gettingNewContent
      (d (run [call_getPreviousContent; job_result job;
               call_getPreviousContent] w)) = true.
Proof.
  intros Hidle Hjobs. unfold run. cbn [foldl step].
  destruct (getPreviousContent_idle w Hidle) as (Hj1 & Hg1 & Hp1).
  rewrite Hjobs in Hj1. simpl in Hj1.
  set (w1 := getPreviousContent w) in *. clearbody w1.
  split; [done|]. rewrite Hj1.
  destruct (gotMessages_pagination job (set_jobs [] w1)) as (Hj2 & Hg2 & Hp2).
  change (jobs (set_jobs [] w1)) with (@nil string) in Hj2.
  change (Private.prevBatch (d (set_jobs [] w1)))
    with (Private.prevBatch (d w1)) in Hp2.
  rewrite Hp1 in Hp2.
  set (w2 := gotMessages job (set_jobs [] w1)) in *. clearbody w2.
  destruct (getPreviousContent_idle w2 Hg2) as (Hj3 & Hg3 & _).
  by rewrite Hj3, Hj2, Hp2.
Qed.

Lemma replay_joinState_app s sigs1 sigs2 :
  replay_joinState s (sigs1 ++ sigs2)
  = replay_joinState s sigs1 ≫= λ s', replay_joinState s' sigs2.
Proof.
  revert s. induction sigs1 as [|sig sigs1 IH]; intros s; [done|].
  destruct sig; simpl; try apply IH.
  destruct (_ && _); [apply IH|done].
Qed.

Lemma replay_joinState_emits (P : Signal → Prop) w w' s0 :
  (∀ s, P s → ∀ o n, s ≠ joinStateChanged o n) →
  emits P w w' →
  replay_joinState s0 (emitted w') = replay_joinState s0 (emitted w).
Proof.
  intros HP (sigs & Heq & Hsigs). rewrite Heq, replay_joinState_app.
  destruct (replay_joinState s0 (emitted w)) as [s|]; [|done]. simpl.
  clear Heq. induction Hsigs as [|sig sigs Hs _ IH]; [done|].
  destruct sig; simpl; try apply IH. by destruct (HP _ Hs oldState newState).
Qed.

(** X18. The [joinStateChanged] signals tell the whole story of the join
    state: in a room used from its construction on, every such signal
    starts from the state the one before led to (the first from Join) and
    leads to a different state, and the last one leads to the join state of
    the room. *)
Theorem joinState_follows_signals me names hc nc id cs :
  let w := run cs (Room_new me names hc nc id) in
  replay_joinState JoinState.Join (emitted w) = Some (Private.joinState (d w)).
Proof.
  intros w. subst w.
  apply (R_run (λ w w',
           replay_joinState JoinState.Join (emitted w)
           = Some (Private.joinState (d w)) →
           replay_joinState JoinState.Join (emitted w')
           = Some (Private.joinState (d w')))); try (by auto).
  - intros event w H.
    rewrite (joinState_state_frame w) by apply state_frame_processStateEvent.
    rewrite (replay_joinState_emits (λ s, state_signal s = true) w);
      [done| |apply emits_processStateEvent].
    intros s Hs o n ->. done.
  - intros event w H.
    rewrite (joinState_ephemeral_frame w)
      by apply ephemeral_frame_processEphemeralEvent.
    rewrite (replay_joinState_emits (λ s, s = typingChanged) w);
      [done| |apply emits_processEphemeralEvent].
    intros s -> o n. done.
  - intros event w H. unfold addMessage. simpl.
    rewrite replay_joinState_app, H. done.
  - intros state w H. unfold setJoinState. case_bool_decide as Hsame.
    + done.
    + simpl. rewrite replay_joinState_app, H. simpl.
      rewrite bool_decide_eq_true_2 by done.
      by rewrite bool_decide_eq_false_2 by done.
  - intros w H. simpl. rewrite replay_joinState_app, H. done.
  - intros w H. simpl. rewrite replay_joinState_app, H. done.
Qed.

(** ** Connections and announcements *)

Lemma connected_User_processEvent u userId membership displayName w :
  connected (member_state w) →
  connected
    (member_state
       (User_processEvent u (RoomMemberEvent userId membership displayName) w)).
Proof.
  intros [Hnd Hsub].
  pose proof (values_User_processEvent u userId membership displayName w)
    as Hv.
  pose proof (member_state_User_processEvent u userId membership displayName w)
    as Hms.
  apply (f_equal (λ ms, ms.2)) in Hms. simpl in Hms.
  set (wa := User_processEvent _ _ w) in *. clearbody wa.
  assert (Hs : nameChangedSlots wa = nameChangedSlots w)
    by (rewrite Hms; by case_bool_decide).
  unfold connected, member_state in *. rewrite Hs. split; [done|].
  intros v Hin. apply Hv. by apply Hsub.
Qed.

Lemma connected_member_transition u membership ms :
  consistent ms → connected ms →
  connected (member_transition u membership ms).
Proof.
  destruct ms as [[[users usersLeft] names] slots].
  intros (_ & _ & Hkey) [Hnd Hsub]. unfold member_transition.
  destruct (_ && _) eqn:Hjoin.
  - apply andb_true_iff in Hjoin as [_ Hc]. apply negb_true_iff in Hc.
    apply contains_false in Hc. rewrite elem_of_values_of in Hc.
    assert (Hu : u ∉ QMultiHash.values users).
    { intros [key Hk]%elem_of_values. by destruct (Hkey _ _ Hk) as [-> _]. }
    split.
    + apply NoDup_app. split; [done|]. split; [|apply NoDup_singleton].
      intros x Hx ->%list_elem_of_singleton. by apply Hu, Hsub.
    + intros v [Hv| ->%list_elem_of_singleton]%elem_of_app.
      * apply elem_of_values. destruct (proj1 (elem_of_values _ _) (Hsub v Hv))
          as [key Hk]. exists key. by right.
      * apply elem_of_values. eexists. by left.
  - clear Hjoin. case_bool_decide; [|done]. split.
    + by apply NoDup_filter.
    + intros v [Hne Hv]%list_elem_of_filter.
      destruct (proj1 (elem_of_values _ _) (Hsub v Hv)) as [key Hk].
      apply elem_of_values. exists key. apply elem_of_remove.
      split; [|done]. intros [= -> ->]. done.
Qed.

Lemma connected_processStateEvent event w :
  registry_consistent w → connected (member_state w) →
  connected (member_state (processStateEvent event w)).
Proof.
  intros Hw Hc. destruct event as [[ts e]|]; [|done].
  destruct (event_membership {| ev_timestamp := ts; ev_data := e |}) eqn:Hm.
  - destruct e; try done. rewrite member_state_processStateEvent.
    apply connected_member_transition.
    + by apply consistent_User_processEvent.
    + by apply connected_User_processEvent.
  - by rewrite member_state_processStateEvent_other.
Qed.

(** X21. In a room used from its construction on, the [nameChanged] signal
    of a user is connected to the room exactly when the user is in the
    registry, and then once: no member goes unheard, no user who left is
    still listened to, and no rename is delivered twice. *)
Theorem connections_match_members me names hc nc id cs :
  let w := run cs (Room_new me names hc nc id) in
  NoDup (nameChangedSlots w)
  ∧ ∀ u, u ∈ nameChangedSlots w ↔ u ∈ QMultiHash.values (Private.users (d w)).
Proof.
  intros w.
  assert (H : registry_consistent w ∧ connected (member_state w)).
  { subst w.
    apply (R_run (λ w w', registry_consistent w ∧ connected (member_state w) →
                          registry_consistent w'
                          ∧ connected (member_state w')));
      try (intros; assumption); try (by auto).
    - intros event w [Hw Hc]. split.
      + by apply consistent_processStateEvent.
      + by apply connected_processStateEvent.
    - intros event w. unfold registry_consistent.
      by rewrite (member_state_ephemeral w (processEphemeralEvent event w))
        by apply ephemeral_frame_processEphemeralEvent.
    - intros state w. unfold registry_consistent.
      by rewrite member_state_setJoinState.
    - split; [apply consistent_Room_new|]. simpl. split; [constructor|].
      by intros u Hu%elem_of_nil. }
  destruct H as [(_ & _ & Hkey) [Hnd Hsub]]. fold w in Hkey, Hnd, Hsub.
  clearbody w. split; [done|]. intros u. split; [apply Hsub|].
  intros [key Hk]%elem_of_values. by destruct (Hkey _ _ Hk).
Qed.

Lemma announces_refl w : announces_displayname w w.
Proof. exists []. rewrite app_nil_r. split; [done|]. by intros []. Qed.

Lemma announces_trans w1 w2 w3 :
  announces_displayname w1 w2 → announces_displayname w2 w3 →
  announces_displayname w1 w3.
Proof.
  intros (s1 & H1 & A1) (s2 & H2 & A2). exists (s1 ++ s2).
  rewrite H2, H1, <- app_assoc. split; [done|]. intros Hne.
  apply elem_of_app.
  destruct (decide (Private.displayname (d w2) = Private.displayname (d w1)))
    as [Heq|Hne1].
  - right. apply A2. by rewrite Heq.
  - left. by apply A1.
Qed.

Lemma announces_same_name w w' sigs :
  emitted w' = emitted w ++ sigs →
  Private.displayname (d w') = Private.displayname (d w) →
  announces_displayname w w'.
Proof. intros He Hd. exists sigs. split; [done|]. by intros []. Qed.

Lemma announces_updateDisplayname w :
  announces_displayname w (updateDisplayname w).
Proof.
  rewrite updateDisplayname_store. unfold store_displayname.
  case_bool_decide as Hne.
  - exists [namesChanged]. split; [done|]. intros _. by left.
  - apply (announces_same_name _ _ []); [by rewrite app_nil_r|].
    simpl. by rewrite Hne.
Qed.

Lemma announces_renameUser u oldName w :
  announces_displayname w (renameUser u oldName w).
Proof.
  unfold renameUser. destruct (contains _ u); [|apply announces_refl].
  eapply announces_trans; [|apply announces_updateDisplayname].
  apply (announces_same_name _ _ []); [by rewrite app_nil_r|done].
Qed.

Lemma announces_User_processEvent u e w :
  announces_displayname w (User_processEvent u e w).
Proof.
  destruct e; try apply announces_refl.
  rewrite User_processEvent_member. case_bool_decide; [apply announces_refl|].
  cbv zeta. case_bool_decide.
  - eapply announces_trans; [|apply announces_renameUser].
    apply (announces_same_name _ _ []); [by rewrite app_nil_r|done].
  - apply (announces_same_name _ _ []); [by rewrite app_nil_r|done].
Qed.

Lemma announces_processStateEvent event w :
  announces_displayname w (processStateEvent event w).
Proof.
  destruct event as [[ts e]|]; [|apply announces_refl].
  destruct e; simpl; try apply announces_refl;
    try (eapply announces_trans; [|apply announces_updateDisplayname];
         apply (announces_same_name _ _ []); [by rewrite app_nil_r|done]).
  - by apply (announces_same_name _ _ [topicChanged]).
  - set (wa := User_processEvent _ _ w).
    assert (Ha : announces_displayname w wa)
      by apply announces_User_processEvent.
    clearbody wa. eapply announces_trans; [exact Ha|].
    destruct (_ && _).
    + eapply announces_trans; [|apply announces_updateDisplayname].
      by apply (announces_same_name _ _ [userAdded userId]).
    + case_bool_decide; [|apply announces_refl].
      eapply announces_trans; [|apply announces_updateDisplayname].
      apply (announces_same_name _ _ [userRemoved userId]);
        by repeat case_match.
Qed.

Lemma announces_processEphemeralEvent event w :
  announces_displayname w (processEphemeralEvent event w).
Proof.
  destruct (emits_processEphemeralEvent event w) as (sigs & He & _).
  apply (announces_same_name _ _ sigs); [done|].
  pose proof (ephemeral_frame_processEphemeralEvent event w) as Hf.
  set (w' := processEphemeralEvent event w) in *. clearbody w'.
  change (Private.displayname (d w'))
    with (Private.displayname (ephemeral_frame w').1.1.1.1).
  by rewrite Hf.
Qed.

(** X22. The display name never changes behind the back of the observers:
    whenever it is not the same after some calls as before them, a
    [namesChanged] was emitted in between. *)
Theorem displayname_change_is_announced cs w :
  ∃ sigs, emitted (run cs w) = emitted w ++ sigs
          ∧ (Private.displayname (d (run cs w)) ≠ Private.displayname (d w) →
             namesChanged ∈ sigs).
Proof.
  apply (R_run announces_displayname).
  - apply announces_refl.
  - apply announces_trans.
  - intros event w0. apply announces_processStateEvent.
  - intros event w0. apply announces_processEphemeralEvent.
  - intros event w0. by apply (announces_same_name _ _ [newMessage event]).
  - intros state w0. unfold setJoinState. case_bool_decide.
    + apply announces_refl.
    + by eapply announces_same_name.
  - intros w0. by apply (announces_same_name _ _ [highlightCountChanged]).
  - intros w0. by apply (announces_same_name _ _ [notificationCountChanged]).
  - intros v w0. apply (announces_same_name _ _ []); [by rewrite app_nil_r|done].
  - intros v w0. apply (announces_same_name _ _ []); [by rewrite app_nil_r|done].
  - intros v w0. apply (announces_same_name _ _ []); [by rewrite app_nil_r|done].
  - intros v w0. apply (announces_same_name _ _ []); [by rewrite app_nil_r|done].
  - intros v w0. apply (announces_same_name _ _ []); [by rewrite app_nil_r|done].
Qed.

(** ** The display name and the order of the joins *)

(** X23. [updateDisplayname] notifies exactly when the display name
    changes: when the name it computes is the one the room has, the room
    is left as it is and nothing is emitted; otherwise one [namesChanged]
    is emitted.  Computing the name a second time changes nothing. *)
Theorem updateDisplayname_notifies_iff_changed w :
  (Private.displayname (d (updateDisplayname w)) = Private.displayname (d w) →
   updateDisplayname w = w)
  ∧ (Private.displayname (d (updateDisplayname w)) ≠ Private.displayname (d w) →
     emitted (updateDisplayname w) = emitted w ++ [namesChanged])
  ∧ updateDisplayname (updateDisplayname w) = updateDisplayname w.
Proof.
  rewrite !updateDisplayname_store, displayname_store, displayname_spec_store.
  split; [|split].
  - intros Heq. unfold store_displayname.
    rewrite bool_decide_eq_false_2 by (intros H; by apply H).
    rewrite Heq. by destruct w as [[] ? ? ? ? ?].
  - intros Hne. rewrite emitted_store.
    by rewrite bool_decide_eq_true_2 by (intros H; by apply Hne).
  - apply store_displayname_twice.
Qed.

(** C7. The display name is not a function of the member set.  In a room
    whose local user is [@a:s], the users [@a:s], [@b:s] and [@c:s] join
    without display names, in this order in one room and in the reverse
    order in another.  The two rooms agree on the name, the canonical
    alias, the id, the users who left, the names of the users, the local
    user and the entries of the registry, which only hands out the three
    users of the empty name in another order; the display names are
    [@b:s and @c:s] and [@a:s and @b:s].  The comparator of
    [roomNameFromMemberNames] is meant to sort by id and to keep the local
    user out of the name; it is not a strict order, and the local user is
    in the second name. *)
Theorem displayname_depends_on_join_order :
  let w1 := state_events example_room_of_a example_joins_abc in
  let w2 := state_events example_room_of_a example_joins_cba in
  Private.name (d w1) = Private.name (d w2)
  ∧ Private.canonicalAlias (d w1) = Private.canonicalAlias (d w2)
  ∧ Private.users (d w1) ≡ₚ Private.users (d w2)
  ∧ QMultiHash.values_of (Private.users (d w1)) "" = ["@c:s"; "@b:s"; "@a:s"]
  ∧ QMultiHash.values_of (Private.users (d w2)) "" = ["@a:s"; "@b:s"; "@c:s"]
  ∧ Private.usersLeft (d w1) = Private.usersLeft (d w2)
  ∧ Private.id (d w1) = Private.id (d w2)
  ∧ userNames w1 = userNames w2
  ∧ localUser w1 = localUser w2
  ∧ Private.displayname (d (updateDisplayname w1)) = "@b:s and @c:s"
  ∧ Private.displayname (d (updateDisplayname w2)) = "@a:s and @b:s".
Proof.
  intros w1 w2.
  assert (H1 : Private.users (d w1) = [("", "@c:s"); ("", "@b:s"); ("", "@a:s")])
    by (vm_compute; reflexivity).
  assert (H2 : Private.users (d w2) = [("", "@a:s"); ("", "@b:s"); ("", "@c:s")])
    by (vm_compute; reflexivity).
  split; [by vm_compute|]. split; [by vm_compute|].
  split; [rewrite H1, H2; solve_Permutation|].
  split; [by rewrite H1|]. split; [by rewrite H2|].
  split; [by vm_compute|]. split; [by vm_compute|].
  split; [by vm_compute|]. split; [by vm_compute|].
  split; by vm_compute.
Qed.

End Room.

(** * The properties on the example room *)

(** C1, as stated, fails: the Join path never takes a user out of the list
    of the users who left.  After a Leave and then a Join of [@x:s], the
    user is in the registry and in the list at once. *)
Lemma leave_then_join_in_both :
  ¬ mutually_exclusive "@x:s"
      (foldl (λ w0 e, processStateEvent true (Some e) w0)
             example_room example_leave_join)
  ∧ ¬ mutually_exclusive "@x:s"
        (foldl (λ w0 e, processStateEvent false (Some e) w0)
               example_room example_leave_join).
Proof.
  unfold mutually_exclusive.
  split; intros H; apply H; vm_compute; split; repeat constructor.
Qed.

Lemma membership_after_join_leave_witness :
  let w := foldl (λ w0 e, processStateEvent true (Some e) w0)
                 example_room example_join_leave_join in
  (occurrences "@x:s" (QMultiHash.values (Private.users (d w))) ≤ 1)%nat
  ∧ (occurrences "@x:s" (Private.usersLeft (d w)) ≤ 1)%nat
  ∧ ("@x:s" ∈ QMultiHash.values (Private.users (d w)))
  ∧ ("@x:s" ∈ Private.usersLeft (d w)).
Proof.
  pose proof (membership_after_join_leave true "@me:s" ∅ 0 0 "!room:s" "@x:s"
                example_join_leave_join) as H.
  assert (Hall : Forall (λ e, is_join_leave_of "@x:s" e = true)
                        example_join_leave_join)
    by (repeat constructor).
  destruct (H Hall) as (H1 & H2 & _ & _ & _ & _ & H7 & _).
  split; [exact H1|]. split; [exact H2|]. apply H7; [reflexivity|].
  apply Exists_cons_tl, Exists_cons_hd. reflexivity.
Defined.

(** C2, as stated, fails: [gotMessages] does not hand the events to
    [processStateEvent].  A fetched [RoomName] event is put into the
    timeline and announced, and the name of the room stays empty, where the
    timeline loop of [updateData] sets it. *)
Lemma gotMessages_skips_state_events :
  Private.name (d (gotMessages example_job_ok example_room)) = ""
  ∧ Private.name
      (d (foldl (timelineEvent_step true) example_room
                (RoomMessagesJob.events example_job_ok))) = "Old name"
  ∧ foldl gotMessages_step example_room (RoomMessagesJob.events example_job_ok)
    ≠ foldl (timelineEvent_step true) example_room
            (RoomMessagesJob.events example_job_ok)
  ∧ foldl gotMessages_step example_room (RoomMessagesJob.events example_job_ok)
    ≠ foldl (timelineEvent_step false) example_room
            (RoomMessagesJob.events example_job_ok).
Proof.
  split; [reflexivity|]. split; [by vm_compute|].
  split; intros H; apply (f_equal (λ w, Private.name (d w))) in H;
    vm_compute in H; discriminate H.
Qed.

Lemma gotMessages_success_witness :
  Private.messageEvents (d (gotMessages example_job_ok example_room))
  = [ {| ev_timestamp := -5; ev_data := RoomMessageEvent "hello" |};
      example_event (RoomNameEvent "Old name") ]
  ∧ emitted (gotMessages example_job_ok example_room)
    = [ newMessage (example_event (RoomNameEvent "Old name"));
        newMessage {| ev_timestamp := -5; ev_data := RoomMessageEvent "hello" |} ]
  ∧ Private.prevBatch (d (gotMessages example_job_ok example_room)) = "t-older"
  ∧ Private.gettingNewContent (d (gotMessages example_job_ok example_room))
    = false.
Proof.
  destruct (gotMessages_success example_job_ok example_room eq_refl)
    as (H1 & _ & H3 & H4 & H5 & _).
  split; [exact H1|]. split; [exact H3|]. split; [exact H4|exact H5].
Defined.

(** C3, as stated, fails: the label goes by the length of the whole list.
    A list of one user gives no label at all, so a room whose only trace is
    one user who left falls through to the fallback; a list of two users
    gives one name, not [A and B]; a list of three gives [A and B], not
    [A and 0 others]. *)
Lemma label_of_short_lists :
  roomNameFromMemberNames true example_room ["@x:s"] = ""
  ∧ roomNameFromMemberNames false example_room ["@x:s"] = ""
  ∧ roomMembername true example_room "@x:s" = "@x:s"
  ∧ roomNameFromMemberNames true example_room ["@x:s"; "@y:s"] = "@x:s"
  ∧ roomNameFromMemberNames true example_room ["@x:s"; "@y:s"; "@z:s"]
    = "@x:s and @y:s"
  ∧ Private.usersLeft
      (d (processStateEvent true
            (Some (example_event
                     (RoomMemberEvent "@x:s" MembershipType.Leave "")))
            example_room)) = ["@x:s"]
  ∧ Private.displayname
      (d (processStateEvent true
            (Some (example_event
                     (RoomMemberEvent "@x:s" MembershipType.Leave "")))
            example_room)) = "Empty room (!room:s)".
Proof. repeat split; by vm_compute. Qed.

Lemma roomNameFromMemberNames_by_size_witness :
  roomNameFromMemberNames true example_room
    ["@d:s"; "@b:s"; "@a:s"; "@c:s"; "@e:s"]
  = "@a:s and 2 others".
Proof.
  destruct (roomNameFromMemberNames_by_size true example_room
              ["@d:s"; "@b:s"; "@a:s"; "@c:s"; "@e:s"]) as [_ H].
  destruct H as (a & b & Hft & _ & _ & _ & _ & H); [simpl; lia|].
  vm_compute in Hft. injection Hft as <- <-.
  apply H; [simpl; lia|reflexivity].
Defined.

Lemma gotMessages_failure_witness :
  Private.gettingNewContent
    (d (gotMessages example_job_failed (getPreviousContent example_room)))
  = false
  ∧ Private.prevBatch
      (d (gotMessages example_job_failed (getPreviousContent example_room)))
    = Private.prevBatch (d example_room)
  ∧ Private.messageEvents
      (d (gotMessages example_job_failed (getPreviousContent example_room)))
    = Private.messageEvents (d example_room).
Proof.
  assert (Herr : RoomMessagesJob.error example_job_failed ≠ 0%Z)
    by (simpl; lia).
  exact (proj1 (proj2 (gotMessages_failure example_job_failed example_room
                         Herr))).
Defined.

Lemma getPreviousContent_single_flight_witness :
  let w := run true [call_getPreviousContent; call_getPreviousContent]
               example_room in
  (length (jobs w) ≤ 1)%nat ∧ getPreviousContent w = w.
Proof.
  destruct (getPreviousContent_single_flight true "@me:s" ∅ 0 0 "!room:s"
              [call_getPreviousContent; call_getPreviousContent]) as [H1 H2].
  split; [exact H1|]. apply H2. reflexivity.
Defined.

Lemma updateDisplayname_deterministic_witness :
  Private.displayname
    (d (updateDisplayname true (upd (Private.set_topic "a topic") example_room)))
  = Private.displayname (d (updateDisplayname true example_room)).
Proof.
  apply (updateDisplayname_deterministic true
           (upd (Private.set_topic "a topic") example_room) example_room);
    reflexivity.
Defined.

Lemma first_updateDisplayname_changes_witness :
  Private.displayname (d example_room) = "Empty room <!room:s>"
  ∧ Private.displayname (d (updateDisplayname true example_room))
    = "Empty room (!room:s)"
  ∧ emitted (updateDisplayname true example_room) = [namesChanged].
Proof.
  destruct (first_updateDisplayname_changes true "@me:s" ∅ 0 0 example_room)
    as (H1 & H2 & _ & H4); try reflexivity.
  split; [exact H1|]. split; [exact H2|exact H4].
Defined.

Lemma leave_of_absent_user_witness :
  Private.users
    (d (processStateEvent true
          (Some (example_event (RoomMemberEvent "@x:s" MembershipType.Leave "")))
          example_room)) = []
  ∧ Private.usersLeft
      (d (processStateEvent true
            (Some (example_event
                     (RoomMemberEvent "@x:s" MembershipType.Leave "")))
            example_room)) = ["@x:s"].
Proof.
  assert (Habsent : "@x:s" ∉ QMultiHash.values (Private.users (d example_room)))
    by (simpl; apply not_elem_of_nil).
  destruct (leave_of_absent_user true 0 "@x:s" "" example_room Habsent)
    as (H1 & H2 & _).
  split; [exact H1|exact H2].
Defined.

(** * The two builds *)

(** X20. For a user with a name who is not among the members of that name,
    and whose name is not that of exactly one member (a user who left, say,
    whose name no member carries), the release build gives the name with
    the id in angle brackets and the debug build gives the bare name: the
    check compiled under [#ifndef NDEBUG] changes what [roomMembername]
    returns. *)
Theorem roomMembername_build w u :
  User_name w u ≠ "" →
  u ∉ QMultiHash.values_of (Private.users (d w)) (User_name w u) →
  length (QMultiHash.values_of (Private.users (d w)) (User_name w u)) ≠ 1%nat →
  roomMembername true w u = User_name w u +:+ " <" +:+ User_id u +:+ ">"
  ∧ roomMembername false w u = User_name w u.
Proof.
  intros Hname Hu Hlen. unfold roomMembername.
  rewrite (proj2 (isEmpty_false _)) by done.
  rewrite (proj2 (Nat.eqb_neq _ _)) by done.
  rewrite (proj2 (contains_false _ _)) by done. done.
Qed.

(** * The further properties on the example room *)

Lemma roomMembername_build_witness :
  roomMembername true
    (set_userNames (<["@x:s" := "Xavier"]> ∅) example_room) "@x:s"
  = "Xavier <@x:s>"
  ∧ roomMembername false
      (set_userNames (<["@x:s" := "Xavier"]> ∅) example_room) "@x:s"
    = "Xavier".
Proof.
  destruct (roomMembername_build
              (set_userNames (<["@x:s" := "Xavier"]> ∅) example_room) "@x:s")
    as [H1 H2].
  - vm_compute. discriminate.
  - vm_compute. apply not_elem_of_nil.
  - vm_compute. discriminate.
  - split; [exact H1|exact H2].
Defined.

Lemma other_membership_keeps_members_witness :
  User_name
    (processStateEvent true
       (Some (example_event
                (RoomMemberEvent "@x:s" MembershipType.Invite "Xavier")))
       example_room) "@x:s" = "Xavier".
Proof.
  destruct (other_membership_keeps_members true 0 "@x:s" MembershipType.Invite
              "Xavier" example_room) as (_ & _ & _ & H);
    [discriminate|discriminate|exact H].
Defined.


Lemma registry_tracks_membership_witness :
  "@x:s" ∈ QMultiHash.values
             (Private.users
                (d (state_events true example_room example_join_leave_join))).
Proof.
  apply (proj1 (registry_tracks_membership true "@me:s" ∅ 0 0 "!room:s"
                  example_join_leave_join "@x:s")).
  reflexivity.
Defined.

Lemma registry_consistent_run_witness :
  User_name
    (run true
       [call_addInitialState
          (Some (example_event
                   (RoomMemberEvent "@x:s" MembershipType.Join "Xavier")))]
       example_room) "@x:s" = "Xavier".
Proof.
  destruct (registry_consistent_run true "@me:s" ∅ 0 0 "!room:s"
              [call_addInitialState
                 (Some (example_event
                          (RoomMemberEvent "@x:s" MembershipType.Join
                             "Xavier")))]) as (_ & _ & H).
  destruct (H "Xavier" "@x:s") as [Hname _]; [by left|].
  symmetry. exact Hname.
Defined.

Lemma renameUser_moves_witness :
  ("", "@x:s")
    ∈ Private.users
        (d (renameUser true "@x:s" "Old"
              (upd (Private.set_users [("Old", "@x:s")]) example_room))).
Proof.
  assert (Hin : ("Old", "@x:s")
                  ∈ Private.users
                      (d (upd (Private.set_users [("Old", "@x:s")])
                              example_room))) by (by left).
  exact (proj1 (proj2 (renameUser_moves true "@x:s" "Old"
                         (upd (Private.set_users [("Old", "@x:s")])
                              example_room)) Hin)).
Defined.

Lemma aliases_event_only_sets_aliases_witness :
  processStateEvent true
    (Some (example_event (RoomAliasesEvent ["#room:s"])))
    (updateDisplayname true example_room)
  = upd (Private.set_aliases ["#room:s"]) (updateDisplayname true example_room).
Proof.
  apply (aliases_event_only_sets_aliases true 0 ["#room:s"]
           (updateDisplayname true example_room)).
  reflexivity.
Defined.

Lemma first_two_are_smallest_witness :
  QString_lt "@b:s" "@a:s" = false
  ∧ ∃ rest, ["@d:s"; "@b:s"; "@a:s"; "@c:s"] ≡ₚ "@a:s" :: "@b:s" :: rest
            ∧ ∀ x, x ∈ rest →
                   QString_lt x "@a:s" = false ∧ QString_lt x "@b:s" = false.
Proof.
  apply (first_two_are_smallest example_room
           ["@d:s"; "@b:s"; "@a:s"; "@c:s"] "@a:s" "@b:s").
  - simpl. rewrite !not_elem_of_cons. repeat split; try discriminate.
    apply not_elem_of_nil.
  - reflexivity.
Defined.

Lemma updateData_without_events_twice_witness :
  updateData true (SyncRoomData.mk JoinState.Invite "t0" [] [] [] 2 3)
    (updateData true (SyncRoomData.mk JoinState.Invite "t0" [] [] [] 2 3)
       example_room)
  = updateData true (SyncRoomData.mk JoinState.Invite "t0" [] [] [] 2 3)
      example_room.
Proof.
  apply (updateData_without_events_twice true
           (SyncRoomData.mk JoinState.Invite "t0" [] [] [] 2 3) example_room);
    reflexivity.
Defined.

Lemma pagination_tokens_witness :
  jobs (run true [call_getPreviousContent; job_result example_job_ok;
                  call_getPreviousContent] example_room)
  = ["t-older"].
Proof.
  exact (proj1 (proj2 (pagination_tokens true example_job_ok example_room
                         eq_refl eq_refl))).
Defined.


Lemma updateDisplayname_notifies_iff_changed_witness :
  emitted (updateDisplayname true example_room) = [namesChanged]
  ∧ updateDisplayname true (updateDisplayname true example_room)
    = updateDisplayname true example_room.
Proof.
  destruct (updateDisplayname_notifies_iff_changed true example_room)
    as (_ & H2 & H3).
  split; [|exact H3]. apply H2. vm_compute. discriminate.
Defined.
